(** * A TF-IDF search engine: embedding of [search.py] and its properties

    The development follows the source file top-down: the normalizer
    [clean], the class [Document] and the class [SearchEngine].  Python
    values are modelled as follows.

    - [str] is [string]; one [ascii] stands for one code point in the range
      0..255, where [str.lower], [str.split] and the regular-expression
      class [\W] are given by fixed ranges of the Unicode tables.
    - [float] is the kernel's binary64 type, so [/], [+] and [*] round as in
      Python.  [math.log] delegates to the C library on positive arguments;
      that function is a parameter ([libm_log]).
    - A [dict] whose order is never observed is a [gmap]; the accumulator of
      [search], whose insertion order decides ties, is an association list.
    - An exception is a [Raise] result.

    The definitions come first, in the order of the source; the examples
    and the properties follow. *)

From Stdlib Require Import PrimFloat FloatOps FloatAxioms SpecFloat.
From Stdlib Require Import Uint63 ZArith NArith Ascii String.
From stdpp Require Import gmap strings list fin_maps fin_sets sorting.

Local Open Scope string_scope.

(* ===================================================================== *)
(** * Text *)
(* ===================================================================== *)

Definition code (c : ascii) : N := N_of_ascii c.

Definition between (lo hi n : N) : bool := ((lo <=? n) && (n <=? hi))%N.

(** [str.isspace] on one code point, the separator class of [str.split()]:
    tab to carriage return, the four information separators, the space,
    NEL and the no-break space. *)
Definition is_space (c : ascii) : bool :=
  let n := code c in
  between 9 13 n || between 28 32 n || (n =? 133)%N || (n =? 160)%N.

(** Upper-case letters below code point 256: [A-Z] and the Latin-1 capitals
    (the multiplication sign 215 is not a letter). *)
Definition is_upper (c : ascii) : bool :=
  let n := code c in
  between 65 90 n || between 192 214 n || between 216 222 n.

(** [str.lower] on one code point: every capital below 256 has its small
    letter 32 places further. *)
Definition lower_char (c : ascii) : ascii :=
  if is_upper c then ascii_of_N (code c + 32) else c.

(** The class [\w] of [re] on [str] patterns: [str.isalnum] or underscore.
    Below 256 these are the ASCII digits and letters, the ordinal
    indicators, the micro sign, the superscript digits, the vulgar
    fractions and the Latin-1 letters (not the signs 215 and 247). *)
Definition is_word (c : ascii) : bool :=
  let n := code c in
  between 48 57 n || between 65 90 n || (n =? 95)%N || between 97 122 n
  || (n =? 170)%N || between 178 179 n || (n =? 181)%N || between 185 186 n
  || between 188 190 n || between 192 214 n || between 216 246 n
  || between 248 255 n.

(** [token.lower()] *)
Fixpoint lower (s : string) : string :=
  match s with
  | EmptyString => EmptyString
  | String c s' => String (lower_char c) (lower s')
  end.

(** [pattern.sub("", s)] for the pattern [\W+]: every maximal run of
    non-word characters is replaced by nothing, which deletes exactly the
    non-word characters and leaves the others in order. *)
Fixpoint sub_nonword (s : string) : string :=
  match s with
  | EmptyString => EmptyString
  | String c s' => if is_word c then String c (sub_nonword s') else sub_nonword s'
  end.

(** [clean(token)], with the default pattern. *)
Definition clean (token : string) : string := sub_nonword (lower token).

(** [s.split()]: the maximal runs of non-space characters, in order.  [cur]
    is the token being read; it is empty between tokens. *)
Fixpoint split_from (cur : string) (s : string) : list string :=
  match s with
  | EmptyString => if String.eqb cur "" then [] else [cur]
  | String c s' =>
      if is_space c
      then (if String.eqb cur "" then split_from "" s' else cur :: split_from "" s')
      else split_from (cur +:+ String c "") s'
  end.

Definition split (s : string) : list string := split_from "" s.

(** [s.startswith(p)] and [s.endswith(p)] *)
Fixpoint startswith (s p : string) : bool :=
  match p, s with
  | EmptyString, _ => true
  | String a p', String b s' => if Ascii.eqb a b then startswith s' p' else false
  | String _ _, EmptyString => false
  end.

Definition endswith (s p : string) : bool :=
  startswith (String.rev s) (String.rev p).
(* ===================================================================== *)
(** * Exceptions and numbers *)
(* ===================================================================== *)

Inductive exn : Set := ValueError | ZeroDivisionError | KeyError.

Inductive result (A : Type) : Type :=
  | Ret (a : A)
  | Raise (e : exn).
Arguments Ret {A} a.
Arguments Raise {A} e.

#[global] Instance result_ret : MRet result := @Ret.
#[global] Instance result_bind : MBind result :=
  λ A B f m, match m with Ret a => f a | Raise e => Raise e end.

(** A [for] loop whose body may raise: the state is threaded through the
    items in order and the first exception ends the loop. *)
Fixpoint for_each {A S : Type} (body : S → A → result S) (items : list A) (s : S)
  : result S :=
  match items with
  | [] => Ret s
  | x :: items' => s' ← body s x; for_each body items' s'
  end.

(** [d[k]] as an expression. *)
Definition getitem {V : Type} (d : gmap string V) (k : string) : result V :=
  match d !! k with
  | Some v => Ret v
  | None => Raise KeyError
  end.

(** [list(d.keys())] *)
Definition keys {V : Type} (d : gmap string V) : list string := (map_to_list d).*1.

(** A Python number is an [int] or a [float]. *)
Inductive number : Set :=
  | PyInt (z : Z)
  | PyFloat (f : float).

(** [float(n)] for an [int] that is a length or a small literal
    (0 <= n < 2^63, the range of [len]). *)
Definition float_of_int (n : Z) : float := PrimFloat.of_uint63 (Uint63.of_Z n).

(** The float an arithmetic operator sees in a number. *)
Definition as_float (x : number) : float :=
  match x with
  | PyInt z => float_of_int z
  | PyFloat f => f
  end.

(** [x / n] with [x] a float and [n] an int: a zero divisor raises (an int
    is zero exactly when its float is), otherwise IEEE division. *)
Definition float_truediv_int (x : float) (n : Z) : result float :=
  if (n =? 0)%Z then Raise ZeroDivisionError
  else Ret (x / float_of_int n)%float.

(** [a / b] with both ints: a zero divisor raises, a zero dividend gives
    0.0, otherwise the quotient rounded to the nearest float (for operands
    below 2^53 that is the IEEE quotient of their floats). *)
Definition int_truediv (a b : Z) : result float :=
  if (b =? 0)%Z then Raise ZeroDivisionError
  else if (a =? 0)%Z then Ret 0%float
  else Ret (float_of_int a / float_of_int b)%float.

(** [x * y] with [x] a float. *)
Definition float_mul (x : float) (y : number) : float := (x * as_float y)%float.

Section Libm.

(** The C library's [log] on finite positive doubles. *)
Variable libm_log : float → float.

(** [math.log(x)] on a float: NaN and +inf are returned as they are, a
    positive argument goes to the C library, and zero or a negative
    argument is a domain error. *)
Definition math_log (x : float) : result float :=
  if PrimFloat.is_nan x then Ret x
  else if (0 <? x)%float
       then Ret (if PrimFloat.is_infinity x then x else libm_log x)
       else Raise ValueError.

End Libm.

(* ===================================================================== *)
(** * Document *)
(* ===================================================================== *)

Record Document : Type := mkDocument {
  filename : string;
  frequency : gmap string float
}.

(** The body of the first loop of [Document.__init__].  Both statements
    belong to the [if]: a word gets its entry, and its increment, only the
    first time it is seen. *)
Definition count_token (frequency : gmap string float) (word : string)
  : gmap string float :=
  let word := clean word in
  match frequency !! word with
  | None =>
      let frequency := <[word := float_of_int 0]> frequency in
      alter (λ v, v + float_of_int 1)%float word frequency
  | Some _ => frequency
  end.

(** The body of the second loop:
    [frequency[unique_word] = frequency[unique_word] / len(tokens)]. *)
Definition divide_entry (len_tokens : Z) (frequency : gmap string float)
    (unique_word : string) : result (gmap string float) :=
  v ← getitem frequency unique_word;
  q ← float_truediv_int v len_tokens;
  mret (<[unique_word := q]> frequency).

(** [Document(filename)], where [content] is what [file.read()] returns. *)
Definition Document_init (filename content : string) : result Document :=
  let tokens := split content in
  let frequency := foldl count_token ∅ tokens in
  frequency ← for_each (divide_entry (Z.of_nat (length tokens))) (keys frequency) frequency;
  mret (mkDocument filename frequency).

(** [self.term_frequency(term)] *)
Definition term_frequency (self : Document) (term : string) : float :=
  let term := clean term in
  match frequency self !! term with
  | Some v => v
  | None => float_of_int 0
  end.

(** [self.get_path()] *)
Definition get_path (self : Document) : string := filename self.

(** [self.get_words()] *)
Definition get_words (self : Document) : gset string := dom (frequency self).

(** [repr(self)] *)
Definition Document_repr (self : Document) : string :=
  "Document('{" +:+ filename self +:+ "}')".

(* ===================================================================== *)
(** * SearchEngine *)
(* ===================================================================== *)

(** [os.path.join(a, b)] on POSIX paths. *)
Definition path_join (a b : string) : string :=
  if startswith b "/" then b
  else if String.eqb a "" || endswith a "/" then a +:+ b
  else a +:+ "/" +:+ b.

(** [files] is a Python set of Documents; the class only creates it and
    takes its [len], so a list stands for it. *)
Record SearchEngine : Type := mkSearchEngine {
  inverted_index : gmap string (list Document);
  files : list Document;
  path : string
}.

(** The body of the loop over [file.get_words()]. *)
Definition add_posting (file : Document) (word : string)
    (inverted_index : gmap string (list Document)) : gmap string (list Document) :=
  let inverted_index :=
    match inverted_index !! word with
    | None => <[word := []]> inverted_index
    | Some _ => inverted_index
    end in
  alter (λ postings, (postings ++ [file])%list) word inverted_index.

(** The body of the loop over [os.listdir(path)].  An entry of the listing
    is a file name with the text of that file.  The statement
    [files.add(file)] is part of the comment that ends the line of the
    [Document(...)] call, so nothing is added to [files]. *)
Definition index_entry (path extension : string)
    (inverted_index : gmap string (list Document)) (entry : string * string)
  : result (gmap string (list Document)) :=
  let '(filename, content) := entry in
  if endswith filename extension then
    file ← Document_init (path_join path filename) content;
    mret (set_fold (add_posting file) inverted_index (get_words file))
  else mret inverted_index.

(** [SearchEngine(path, extension)], where [listing] is the directory at
    [path]: its entries in the order of [os.listdir]. *)
Definition SearchEngine_init (path : string) (listing : list (string * string))
    (extension : string) : result SearchEngine :=
  let files := [] in
  inverted_index ← for_each (index_entry path extension) listing ∅;
  mret (mkSearchEngine inverted_index files path).

(** [repr(self)] *)
Definition SearchEngine_repr (self : SearchEngine) : string :=
  "SearchEngine('{" +:+ path self +:+ "}')".

(** The accumulator [output] of [search]: a dict from paths to scores in
    insertion order.  [dict_set] is [output[k] = v]: an existing key keeps
    its place, a new key goes to the end. *)
Fixpoint dict_set (output : list (string * float)) (k : string) (v : float)
  : list (string * float) :=
  match output with
  | [] => [(k, v)]
  | (k', v') :: output' =>
      if String.eqb k' k then (k', v) :: output'
      else (k', v') :: dict_set output' k v
  end.

(** [output[k]] *)
Fixpoint dict_getitem (output : list (string * float)) (k : string) : result float :=
  match output with
  | [] => Raise KeyError
  | (k', v') :: output' => if String.eqb k' k then Ret v' else dict_getitem output' k
  end.

(** [file in output]: the keys of [output] are strings and a Document is
    equal to no string, so the test never succeeds. *)
Definition document_in (file : Document) (output : list (string * float)) : bool :=
  false.

(** A stable ascending sort that compares decorated items by [<] on their
    keys only, as [list.sort] does. *)
Fixpoint insert_by_key {A : Type} (x : float * A) (l : list (float * A))
  : list (float * A) :=
  match l with
  | [] => [x]
  | y :: l' => if (y.1 <? x.1)%float then y :: insert_by_key x l' else x :: l
  end.

Definition sort_by_key {A : Type} (l : list (float * A)) : list (float * A) :=
  foldr insert_by_key [] l.

(** [sorted(items, key=key, reverse=True)]: the keys are computed first;
    the list is reversed, sorted and reversed again, which keeps items with
    equal keys in their original order. *)
Definition sorted_reverse {A : Type} (key : A → result float) (items : list A)
  : result (list A) :=
  decorated ← mapM (λ x, k ← key x; mret (k, x)) items;
  mret ((reverse (sort_by_key (reverse decorated))).*2).

Section Engine.

Variable libm_log : float → float.

(** [self._calculate_idf(term)] *)
Definition _calculate_idf (self : SearchEngine) (term : string) : result number :=
  match inverted_index self !! term with
  | Some postings =>
      q ← int_truediv (Z.of_nat (length (files self))) (Z.of_nat (length postings));
      x ← math_log libm_log q;
      mret (PyFloat x)
  | None => mret (PyInt 0)
  end.

(** The body of the loop over a posting list. *)
Definition score_posting (self : SearchEngine) (term : string)
    (output : list (string * float)) (file : Document)
  : result (list (string * float)) :=
  let tf := term_frequency file term in
  idf ← _calculate_idf self term;
  let tf_idf := float_mul tf idf in
  let output :=
    if document_in file output then output
    else dict_set output (get_path file) (float_of_int 0) in
  mret (dict_set output (get_path file) tf_idf).

(** The body of the loop over the words of the query. *)
Definition score_word (self : SearchEngine) (output : list (string * float))
    (word : string) : result (list (string * float)) :=
  let term := clean word in
  match inverted_index self !! term with
  | Some postings => for_each (score_posting self term) postings output
  | None => mret output
  end.

(** [self.search(query)] *)
Definition search (self : SearchEngine) (query : string) : result (list string) :=
  let words := split query in
  output ← for_each (score_word self) words [];
  sorted_reverse (dict_getitem output) (output.*1).

End Engine.

(* ===================================================================== *)
(** * Reference definitions *)
(* ===================================================================== *)

(** The Documents [SearchEngine.__init__] constructs, in the order of the
    listing. *)
Definition load_entry (path extension : string) (docs : list Document)
    (entry : string * string) : result (list Document) :=
  let '(filename, content) := entry in
  if endswith filename extension then
    file ← Document_init (path_join path filename) content;
    mret (docs ++ [file])%list
  else mret docs.

Definition loaded_documents (path : string) (listing : list (string * string))
    (extension : string) : result (list Document) :=
  for_each (load_entry path extension) listing [].

(** The frequency the documentation of [Document] describes: the number of
    tokens that normalize to [t] divided by the number of tokens. *)
Definition occurrences (tokens : list string) (t : string) : nat :=
  length (filter (λ word, clean word = t) tokens).

Definition described_frequency (content t : string) : result float :=
  let tokens := split content in
  int_truediv (Z.of_nat (occurrences tokens t)) (Z.of_nat (length tokens)).

(** The sum of [term_frequency(term) * n] over the words of a document. *)
Definition frequency_mass (d : Document) (n : Z) : float :=
  foldl (λ acc term, acc + float_mul (term_frequency d term) (PyInt n))%float
        (float_of_int 0) (elements (get_words d)).

(** The documents of [docs] that have the word [w], in order. *)
Definition containing (w : string) (docs : list Document) : list Document :=
  filter (λ d, w ∈ get_words d) docs.

(** The entry of a word after the documents [ds] were appended to the
    entry [o]: untouched when there is none to append. *)
Definition extend_postings (o : option (list Document)) (ds : list Document)
  : option (list Document) :=
  match ds with
  | [] => o
  | _ => Some (default [] o ++ ds)%list
  end.

(** [a] stands before [b] in the list. *)
Inductive before {A : Type} (a b : A) : list A → Prop :=
  | before_here (l : list A) : b ∈ l → before a b (a :: l)
  | before_later (x : A) (l : list A) : before a b l → before a b (x :: l).

(** Two neighbours of a list in ascending, and in descending, order of
    their keys: the second is not smaller, and not greater, than the
    first. *)
Definition ascending {A : Type} (y z : float * A) : Prop := (z.1 <? y.1)%float = false.

Definition descending {A : Type} (y z : float * A) : Prop := (y.1 <? z.1)%float = false.

(* ===================================================================== *)
(** * Fixtures *)
(* ===================================================================== *)

(** A directory with two text files and one file of another kind. *)
Definition corpus : list (string * string) :=
  [("a.txt", "x y"); ("b.txt", "Y."); ("c.md", "z")].

Definition doc_a : Document :=
  mkDocument "corpus/a.txt" (<["x" := 0.5%float]> (<["y" := 0.5%float]> ∅)).

Definition doc_b : Document :=
  mkDocument "corpus/b.txt" (<["y" := 1%float]> ∅).

Definition corpus_engine : SearchEngine :=
  mkSearchEngine (<["x" := [doc_a]]> (<["y" := [doc_a; doc_b]]> ∅)) [] "corpus".

(** The logarithm on the two arguments a two-document corpus can ask for. *)
Definition log_fixture (x : float) : float :=
  if (x =? 2)%float then 0x1.62e42fefa39efp-1%float else 0%float.

(* ===================================================================== *)
(** * The scan at module level *)
(* ===================================================================== *)





(* ===================================================================== *)
(** * More reference definitions *)
(* ===================================================================== *)

(** Every character of the string passes the test. *)
Fixpoint all_chars (P : ascii → bool) (s : string) : bool :=
  match s with
  | EmptyString => true
  | String c s' => P c && all_chars P s'
  end.

(** A character of a normalized term: a word character that is not a
    capital. *)
Definition is_term_char (c : ascii) : bool := is_word c && negb (is_upper c).

Definition is_term (s : string) : bool := all_chars is_term_char s.


(** The Document one entry of the listing gives, if it is selected. *)
Definition load_one (path extension : string) (entry : string * string) : option Document :=
  if endswith entry.1 extension then
    match Document_init (path_join path entry.1) entry.2 with
    | Ret file => Some file
    | Raise _ => None
    end
  else None.

(** The posting list of a word, empty when the word has no entry. *)
Definition postings (self : SearchEngine) (w : string) : list Document :=
  default [] (inverted_index self !! w).

(** The engine of the fixture directory with both documents put into
    [files] by hand, and a document with a token of punctuation. *)
Definition corpus_engine_filled : SearchEngine :=
  mkSearchEngine (inverted_index corpus_engine) [doc_a; doc_b] "corpus".


(* ===================================================================== *)
(** * Examples *)
(* ===================================================================== *)

Example clean_doctest : clean "Hello!" = "hello".
Proof. reflexivity. Qed.

Example clean_joins : clean "It's_9-to-5, OK?" = "its_9to5ok".
Proof. reflexivity. Qed.

Example split_runs : split "  dogs are	the
greatest   pets " = ["dogs"; "are"; "the"; "greatest"; "pets"].
Proof. reflexivity. Qed.

Example split_blank : split "   " = [].
Proof. reflexivity. Qed.

Example endswith_txt : endswith "doc1.txt" ".txt" = true /\ endswith "doc1.txt~" ".txt" = false.
Proof. split; reflexivity. Qed.

Example int_truediv_half : int_truediv 1 2 = Ret 0.5%float.
Proof. reflexivity. Qed.

Example int_truediv_zero_dividend :
  (float_of_int 0 / float_of_int 7)%float = 0%float /\ int_truediv 0 7 = Ret 0%float.
Proof. split; reflexivity. Qed.

Example doc1_frequency :
  (d ← Document_init "doggos/doc1.txt" "dogs are the greatest pets";
   mret (term_frequency d "dogs", term_frequency d "Dogs!", term_frequency d "cats"))
  = Ret ((1 / 5)%float, (1 / 5)%float, 0%float).
Proof. vm_compute. reflexivity. Qed.

Example doc1_words :
  (d ← Document_init "doggos/doc1.txt" "dogs are the greatest pets"; mret (get_words d))
  = Ret (list_to_set ["dogs"; "are"; "the"; "greatest"; "pets"]).
Proof. vm_compute. reflexivity. Qed.

Example doc1_repr :
  (d ← Document_init "doggos/doc1.txt" "dogs are the greatest pets"; mret (Document_repr d))
  = Ret "Document('{doggos/doc1.txt}')".
Proof. vm_compute. reflexivity. Qed.

Example path_join_cases :
  path_join "doggos" "doc1.txt" = "doggos/doc1.txt" ∧
  path_join "doggos/" "doc1.txt" = "doggos/doc1.txt" ∧
  path_join "" "doc1.txt" = "doc1.txt".
Proof. repeat split. Qed.

Example corpus_engine_built :
  SearchEngine_init "corpus" corpus ".txt" = Ret corpus_engine ∧
  loaded_documents "corpus" corpus ".txt" = Ret [doc_a; doc_b].
Proof. split; vm_compute; reflexivity. Qed.

Example corpus_engine_repr : SearchEngine_repr corpus_engine = "SearchEngine('{corpus}')".
Proof. reflexivity. Qed.

Example idf_of_unseen_term : _calculate_idf log_fixture corpus_engine "bird" = Ret (PyInt 0).
Proof. reflexivity. Qed.

(** With both documents recorded in [files] by hand, the idf of a word of
    one of the two is log 2. *)
Example idf_with_files :
  _calculate_idf log_fixture
    (mkSearchEngine (inverted_index corpus_engine) [doc_a; doc_b] "corpus") "x"
  = Ret (PyFloat 0x1.62e42fefa39efp-1%float).
Proof. vm_compute. reflexivity. Qed.

Example sorted_reverse_is_stable :
  sorted_reverse (λ x, Ret (float_of_int (Z.of_nat (String.length x))))
                 ["aa"; "b"; "cc"; "d"; "eee"]
  = Ret ["eee"; "aa"; "cc"; "b"; "d"].
Proof. vm_compute. reflexivity. Qed.

(** An engine whose [files] was filled by hand, with the identity in the
    place of the logarithm: the scores of the second word replace those of
    the first, and equal scores keep the order of first insertion. *)
Example search_with_files :
  let p := mkDocument "p" (<["x" := 0.5%float]> (<["y" := 0.5%float]> ∅)) in
  let q := mkDocument "q" (<["x" := 0.25%float]> (<["y" := 0.75%float]> ∅)) in
  let r := mkDocument "r" (<["y" := 0.5%float]> ∅) in
  let e := mkSearchEngine (<["x" := [p; q]]> (<["y" := [q; p; r]]> ∅)) [p; q; r; r; r; r] "d" in
  for_each (score_word (λ x, x) e) (split "x y") []
    = Ret [("p", 1%float); ("q", 1.5%float); ("r", 1%float)] ∧
  search (λ x, x) e "x y" = Ret ["q"; "p"; "r"].
Proof. split; vm_compute; reflexivity. Qed.
(* ===================================================================== *)
(** * Properties of the normalizer *)
(* ===================================================================== *)


Lemma is_word_lower_char (c : ascii) : is_word (lower_char c) = is_word c.
Proof. destruct c as [[] [] [] [] [] [] [] []]; vm_compute; reflexivity. Qed.

Lemma clean_cons (c : ascii) (s : string) :
  clean (String c s) =
  if is_word c then String (lower_char c) (clean s) else clean s.
Proof. unfold clean. simpl. rewrite is_word_lower_char. reflexivity. Qed.


(* ===================================================================== *)
(** * What [Document.__init__] stores *)
(* ===================================================================== *)

Lemma for_each_app {A S : Type} (body : S → A → result S) (l1 l2 : list A) (s : S) :
  for_each body (l1 ++ l2) s = (s' ← for_each body l1 s; for_each body l2 s').
Proof.
  revert s. induction l1 as [|x l1 IH]; intros s; [reflexivity|].
  simpl. destruct (body s x) as [s'|e]; simpl; [apply IH | reflexivity].
Qed.

Lemma count_token_lookup (freq : gmap string float) (word w : string) :
  count_token freq word !! w =
  match freq !! w with
  | Some v => Some v
  | None => if decide (w = clean word) then Some 1%float else None
  end.
Proof.
  unfold count_token.
  destruct (freq !! clean word) as [v0|] eqn:Hc.
  - destruct (freq !! w) eqn:Hw; [reflexivity|].
    case_decide; [congruence | reflexivity].
  - destruct (decide (w = clean word)) as [->|Hne].
    + rewrite Hc, lookup_alter_eq, lookup_insert_eq. reflexivity.
    + rewrite lookup_alter_ne, lookup_insert_ne by congruence.
      destruct (freq !! w); reflexivity.
Qed.

(** After the first loop every normalized token is a key, and every key the
    loop added holds 1.0 however often the token occurred. *)
Lemma counted_lookup (tokens : list string) (freq : gmap string float) (w : string) :
  foldl count_token freq tokens !! w =
  match freq !! w with
  | Some v => Some v
  | None => if decide (w ∈ clean <$> tokens) then Some 1%float else None
  end.
Proof.
  revert freq. induction tokens as [|t tokens IH]; intros freq; cbn [foldl].
  - destruct (freq !! w); [reflexivity|]. case_decide; [set_solver | reflexivity].
  - rewrite IH, count_token_lookup, fmap_cons.
    destruct (freq !! w); [reflexivity|].
    destruct (decide (w = clean t)) as [->|Hne].
    + rewrite decide_True by apply list_elem_of_here. reflexivity.
    + destruct (decide (w ∈ clean <$> tokens)) as [Hin|Hin].
      * rewrite decide_True by (apply list_elem_of_further; exact Hin). reflexivity.
      * rewrite decide_False by (intros [?|?]%elem_of_cons; done). reflexivity.
Qed.

Lemma divide_entry_present (n : Z) (m : gmap string float) (k : string) (v : float) :
  n ≠ 0%Z → m !! k = Some v →
  divide_entry n m k = Ret (<[k := (v / float_of_int n)%float]> m).
Proof.
  intros Hn Hv. unfold divide_entry, getitem, float_truediv_int.
  rewrite Hv. simpl. destruct (Z.eqb_spec n 0); [contradiction | reflexivity].
Qed.

Lemma divide_entries (n : Z) (ks : list string) (m : gmap string float) :
  n ≠ 0%Z → NoDup ks → (∀ k, k ∈ ks → is_Some (m !! k)) →
  ∃ m', for_each (divide_entry n) ks m = Ret m' ∧
        ∀ k, m' !! k = if decide (k ∈ ks)
                       then (λ v, v / float_of_int n)%float <$> m !! k
                       else m !! k.
Proof.
  intros Hn. revert m. induction ks as [|k0 ks IH]; intros m Hnd Hin.
  - exists m. split; [reflexivity|]. intros k. case_decide; [set_solver | reflexivity].
  - apply NoDup_cons in Hnd as [Hk0 Hnd].
    destruct (Hin k0) as [v Hv]; [set_solver|].
    destruct (IH (<[k0 := (v / float_of_int n)%float]> m) Hnd) as (m' & Hrun & Hm').
    { intros k Hk. rewrite lookup_insert_ne by set_solver. apply Hin. set_solver. }
    exists m'. split.
    + cbn [for_each]. rewrite (divide_entry_present n m k0 v Hn Hv). exact Hrun.
    + intros k. rewrite Hm'. destruct (decide (k = k0)) as [->|Hne].
      * rewrite lookup_insert_eq, Hv, (decide_False _ _ Hk0).
        rewrite decide_True by apply list_elem_of_here. reflexivity.
      * rewrite lookup_insert_ne by congruence.
        destruct (decide (k ∈ ks)) as [Hk|Hk].
        -- rewrite decide_True by (apply list_elem_of_further; exact Hk). reflexivity.
        -- rewrite decide_False by (intros [?|?]%elem_of_cons; done). reflexivity.
Qed.

(** The second loop divides every value once; it cannot raise, because it
    has an entry to divide only when there was a token. *)
Lemma divide_keys (tokens : list string) :
  let counted := foldl count_token ∅ tokens in
  let n := Z.of_nat (length tokens) in
  for_each (divide_entry n) (keys counted) counted
  = Ret ((λ v, v / float_of_int n)%float <$> counted).
Proof.
  intros counted n. destruct tokens as [|t tokens].
  - reflexivity.
  - destruct (divide_entries n (keys counted) counted) as (m' & Hrun & Hm').
    + subst n. simpl. lia.
    + apply NoDup_fst_map_to_list.
    + intros k Hk. apply elem_of_dom. unfold keys in Hk.
      apply list_elem_of_fmap in Hk as ([k' v] & -> & Hk).
      apply elem_of_map_to_list in Hk. apply elem_of_dom. eauto.
    + rewrite Hrun. f_equal. apply map_eq. intros k.
      rewrite Hm', lookup_fmap. case_decide as Hk; [reflexivity|].
      destruct (counted !! k) as [v|] eqn:Hv; [|reflexivity].
      exfalso. apply Hk. unfold keys. apply list_elem_of_fmap.
      exists (k, v). split; [reflexivity|]. apply elem_of_map_to_list. exact Hv.
Qed.

(** [Document.__init__] returns for every content; its table is the table
    of the first loop with every value divided by the token count. *)
Lemma Document_init_returns (filename content : string) :
  Document_init filename content =
  Ret (mkDocument filename
         ((λ v, v / float_of_int (Z.of_nat (length (split content))))%float
            <$> foldl count_token ∅ (split content))).
Proof. unfold Document_init. rewrite divide_keys. reflexivity. Qed.

(** Every stored frequency is 1.0 / len(tokens). *)
Lemma Document_init_frequency (filename content : string) (d : Document) (w : string) :
  Document_init filename content = Ret d →
  frequency d !! w =
  if decide (w ∈ clean <$> split content)
  then Some (1 / float_of_int (Z.of_nat (length (split content))))%float
  else None.
Proof.
  rewrite Document_init_returns. intros [= <-]. simpl.
  rewrite lookup_fmap, counted_lookup, lookup_empty.
  case_decide; reflexivity.
Qed.

Lemma Document_init_filename (filename content : string) (d : Document) :
  Document_init filename content = Ret d → get_path d = filename.
Proof. rewrite Document_init_returns. intros [= <-]. reflexivity. Qed.

(** The words of a document are its normalized tokens. *)
Lemma Document_init_words (filename content : string) (d : Document) :
  Document_init filename content = Ret d →
  get_words d = list_to_set (clean <$> split content).
Proof.
  intros Hd. apply set_eq. intros w. unfold get_words.
  rewrite elem_of_dom, (Document_init_frequency _ _ _ _ Hd), elem_of_list_to_set.
  case_decide; split; intros H'; try done.
Qed.

(** ** Stored and documented frequency *)

Lemma occurrences_cons (word : string) (tokens : list string) (t : string) :
  occurrences (word :: tokens) t =
  if decide (clean word = t) then S (occurrences tokens t) else occurrences tokens t.
Proof.
  unfold occurrences. rewrite filter_cons.
  destruct (decide (clean word = t)); reflexivity.
Qed.

Lemma occurrences_absent (tokens : list string) (t : string) :
  t ∉ clean <$> tokens → occurrences tokens t = 0.
Proof.
  induction tokens as [|word tokens IH]; [reflexivity|].
  rewrite fmap_cons, not_elem_of_cons. intros [Hne Hin].
  rewrite occurrences_cons, decide_False by congruence. exact (IH Hin).
Qed.

Lemma occurrences_once (tokens : list string) (t : string) :
  NoDup (clean <$> tokens) → t ∈ clean <$> tokens → occurrences tokens t = 1.
Proof.
  induction tokens as [|word tokens IH]; [intros _ Hin; inversion Hin|].
  rewrite fmap_cons, NoDup_cons, elem_of_cons. intros [Hfresh Hnd] Hin.
  rewrite occurrences_cons. destruct (decide (clean word = t)) as [<-|Hne].
  - rewrite occurrences_absent by exact Hfresh. reflexivity.
  - destruct Hin as [->|Hin]; [contradiction|]. exact (IH Hnd Hin).
Qed.

(** The stored frequency is the documented one when no normalized token
    repeats. *)
Lemma frequency_without_repeats (filename content : string) (d : Document)
    (t : string) (v : float) :
  NoDup (clean <$> split content) →
  Document_init filename content = Ret d →
  frequency d !! t = Some v →
  described_frequency content t = Ret v.
Proof.
  intros Hnd Hd. rewrite (Document_init_frequency _ _ _ _ Hd).
  destruct (decide (t ∈ clean <$> split content)) as [Hin|]; [|discriminate].
  intros [= <-]. unfold described_frequency.
  rewrite (occurrences_once _ _ Hnd Hin).
  destruct (split content) as [|word tokens]; [inversion Hin|].
  unfold int_truediv. cbn [length].
  destruct (Z.eqb_spec (Z.of_nat (S (length tokens))) 0); [lia | reflexivity].
Qed.

(* ===================================================================== *)
(** * What [SearchEngine.__init__] builds *)
(* ===================================================================== *)

Lemma add_posting_lookup (file : Document) (word w : string)
    (idx : gmap string (list Document)) :
  add_posting file word idx !! w =
  if decide (w = word) then Some (default [] (idx !! w) ++ [file])%list else idx !! w.
Proof.
  unfold add_posting. destruct (decide (w = word)) as [->|Hne].
  - rewrite lookup_alter_eq. destruct (idx !! word) as [l|] eqn:Hl.
    + rewrite Hl. reflexivity.
    + rewrite lookup_insert_eq. reflexivity.
  - rewrite lookup_alter_ne by congruence.
    destruct (idx !! word); [reflexivity|].
    rewrite lookup_insert_ne by congruence. reflexivity.
Qed.

(** Indexing one document appends it to the entry of each of its words and
    leaves every other entry alone, whatever the order of the set. *)
Lemma index_document_lookup (file : Document) (idx : gmap string (list Document))
    (w : string) :
  set_fold (add_posting file) idx (get_words file) !! w =
  extend_postings (idx !! w) (containing w [file]).
Proof.
  transitivity (if decide (w ∈ get_words file)
                then Some (default [] (idx !! w) ++ [file])%list else idx !! w).
  - generalize (get_words file).
    apply (set_fold_ind_L (λ r X, r !! w =
             if decide (w ∈ X) then Some (default [] (idx !! w) ++ [file])%list
             else idx !! w)).
    + rewrite decide_False by apply not_elem_of_empty. reflexivity.
    + intros x X r Hx Hr. rewrite add_posting_lookup.
      destruct (decide (w = x)) as [->|Hne].
      * rewrite decide_True by (apply elem_of_union_l, elem_of_singleton; reflexivity).
        rewrite Hr, decide_False by exact Hx. reflexivity.
      * rewrite Hr. destruct (decide (w ∈ X)).
        -- rewrite decide_True by (apply elem_of_union_r; assumption). reflexivity.
        -- rewrite decide_False
             by (intros [?%elem_of_singleton|?]%elem_of_union; contradiction).
           reflexivity.
  - unfold containing. rewrite filter_cons, filter_nil.
    destruct (decide (w ∈ get_words file)); reflexivity.
Qed.

Lemma extend_postings_app (o : option (list Document)) (ds1 ds2 : list Document) :
  extend_postings (extend_postings o ds1) ds2 = extend_postings o (ds1 ++ ds2).
Proof.
  destruct ds1 as [|d1 ds1]; [reflexivity|].
  destruct ds2 as [|d2 ds2]; simpl.
  - rewrite app_nil_r. reflexivity.
  - rewrite <- app_assoc. reflexivity.
Qed.

Lemma containing_app (w : string) (ds1 ds2 : list Document) :
  containing w (ds1 ++ ds2) = (containing w ds1 ++ containing w ds2)%list.
Proof. apply filter_app. Qed.

Lemma for_each_cons {A S : Type} (body : S → A → result S) (x : A) (l : list A) (s : S) :
  for_each body (x :: l) s = (s' ← body s x; for_each body l s').
Proof. reflexivity. Qed.

Lemma index_entry_selected (path extension name content : string)
    (idx : gmap string (list Document)) (file : Document) :
  endswith name extension = true →
  Document_init (path_join path name) content = Ret file →
  index_entry path extension idx (name, content)
  = Ret (set_fold (add_posting file) idx (get_words file)).
Proof. intros Hsel Hfile. unfold index_entry. rewrite Hsel, Hfile. reflexivity. Qed.

Lemma index_entry_skipped (path extension name content : string)
    (idx : gmap string (list Document)) :
  endswith name extension = false →
  index_entry path extension idx (name, content) = Ret idx.
Proof. intros Hsel. unfold index_entry. rewrite Hsel. reflexivity. Qed.

Lemma load_entry_selected (path extension name content : string)
    (docs : list Document) (file : Document) :
  endswith name extension = true →
  Document_init (path_join path name) content = Ret file →
  load_entry path extension docs (name, content) = Ret (docs ++ [file])%list.
Proof. intros Hsel Hfile. unfold load_entry. rewrite Hsel, Hfile. reflexivity. Qed.

Lemma load_entry_skipped (path extension name content : string) (docs : list Document) :
  endswith name extension = false →
  load_entry path extension docs (name, content) = Ret docs.
Proof. intros Hsel. unfold load_entry. rewrite Hsel. reflexivity. Qed.

(** The loop over the listing returns; it constructs one Document per
    selected entry and extends every entry of the index by the new
    documents that have the word. *)
Lemma index_listing (path extension : string) (listing : list (string * string)) :
  ∀ idx, ∃ idx' docs,
    for_each (index_entry path extension) listing idx = Ret idx' ∧
    (∀ docs0, for_each (load_entry path extension) listing docs0 = Ret (docs0 ++ docs)%list) ∧
    ∀ w, idx' !! w = extend_postings (idx !! w) (containing w docs).
Proof.
  induction listing as [|[name content] listing IH]; intros idx.
  - exists idx, []. repeat split.
    intros docs0. simpl. rewrite app_nil_r. reflexivity.
  - destruct (endswith name extension) eqn:Hsel.
    + pose proof (Document_init_returns (path_join path name) content) as Hfile.
      set (file := mkDocument _ _) in Hfile.
      destruct (IH (set_fold (add_posting file) idx (get_words file)))
        as (idx' & docs & Hidx & Hdocs & Hlook).
      exists idx', (file :: docs). split; [|split].
      * rewrite for_each_cons, (index_entry_selected _ _ _ _ _ _ Hsel Hfile). exact Hidx.
      * intros docs0.
        rewrite for_each_cons, (load_entry_selected _ _ _ _ _ _ Hsel Hfile).
        cbn. rewrite Hdocs, <- app_assoc. reflexivity.
      * intros w. rewrite Hlook, index_document_lookup, extend_postings_app.
        rewrite <- containing_app. reflexivity.
    + destruct (IH idx) as (idx' & docs & Hidx & Hdocs & Hlook).
      exists idx', docs. split; [|split].
      * rewrite for_each_cons, (index_entry_skipped _ _ _ _ _ Hsel). exact Hidx.
      * intros docs0. rewrite for_each_cons, (load_entry_skipped _ _ _ _ _ Hsel).
        apply Hdocs.
      * exact Hlook.
Qed.

(** [SearchEngine.__init__] returns for every directory: [files] is empty
    and the entry of a word lists the loaded documents that have it. *)
Lemma SearchEngine_init_returns (path : string) (listing : list (string * string))
    (extension : string) :
  ∃ e docs,
    SearchEngine_init path listing extension = Ret e ∧
    loaded_documents path listing extension = Ret docs ∧
    files e = [] ∧
    ∀ w, inverted_index e !! w = extend_postings None (containing w docs).
Proof.
  destruct (index_listing path extension listing ∅) as (idx & docs & Hidx & Hdocs & Hlook).
  exists (mkSearchEngine idx [] path), docs. repeat split.
  - unfold SearchEngine_init. rewrite Hidx. reflexivity.
  - apply Hdocs.
  - intros w. cbn. rewrite Hlook, lookup_empty. reflexivity.
Qed.

Lemma built_files (path : string) (listing : list (string * string))
    (extension : string) (e : SearchEngine) :
  SearchEngine_init path listing extension = Ret e → files e = [].
Proof.
  destruct (SearchEngine_init_returns path listing extension) as (e' & docs & He & _ & Hf & _).
  rewrite He. intros [= <-]. exact Hf.
Qed.

Lemma built_postings (path : string) (listing : list (string * string))
    (extension : string) (e : SearchEngine) (docs : list Document)
    (w : string) (postings : list Document) :
  SearchEngine_init path listing extension = Ret e →
  loaded_documents path listing extension = Ret docs →
  inverted_index e !! w = Some postings →
  postings = containing w docs ∧ postings ≠ [].
Proof.
  destruct (SearchEngine_init_returns path listing extension)
    as (e' & docs' & He & Hd & _ & Hlook).
  rewrite He, Hd. intros [= <-] [= <-]. rewrite Hlook.
  destruct (containing w docs') as [|d ds]; [discriminate|].
  intros [= <-]. split; [reflexivity | discriminate].
Qed.

(* ===================================================================== *)
(** * The accumulator of [search] *)
(* ===================================================================== *)

Lemma dict_getitem_set (output : list (string * float)) (k : string) (v : float) :
  dict_getitem (dict_set output k v) k = Ret v.
Proof.
  induction output as [|[k' v'] output IH]; simpl.
  - rewrite String.eqb_refl. reflexivity.
  - destruct (String.eqb k' k) eqn:Hk; simpl; rewrite Hk; [reflexivity | exact IH].
Qed.

Lemma dict_getitem_set_ne (output : list (string * float)) (k k' : string) (v : float) :
  k ≠ k' → dict_getitem (dict_set output k v) k' = dict_getitem output k'.
Proof.
  intros Hne. induction output as [|[k0 v0] output IH]; simpl.
  - destruct (String.eqb_spec k k'); [contradiction | reflexivity].
  - destruct (String.eqb_spec k0 k) as [->|Hk0]; simpl.
    + destruct (String.eqb_spec k k'); [contradiction | reflexivity].
    + destruct (String.eqb_spec k0 k'); [reflexivity | exact IH].
Qed.

(** Assigning twice to the same key is assigning the second value. *)
Lemma dict_set_set (output : list (string * float)) (k : string) (v0 v : float) :
  dict_set (dict_set output k v0) k v = dict_set output k v.
Proof.
  induction output as [|[k' v'] output IH]; simpl.
  - rewrite String.eqb_refl. reflexivity.
  - destruct (String.eqb k' k) eqn:Hk; simpl; rewrite Hk; [reflexivity|].
    rewrite IH. reflexivity.
Qed.

(** An assignment keeps the place of a key that is there and puts a new
    key last. *)
Lemma dict_set_keys (output : list (string * float)) (k : string) (v : float) :
  (dict_set output k v).*1 = if decide (k ∈ output.*1) then output.*1 else (output.*1 ++ [k])%list.
Proof.
  induction output as [|[k' v'] output IH]; [reflexivity|]. cbn [dict_set].
  destruct (String.eqb_spec k' k) as [->|Hk]; rewrite !fmap_cons; cbn [fst].
  - rewrite decide_True by apply list_elem_of_here. reflexivity.
  - rewrite IH. destruct (decide (k ∈ output.*1)) as [Hin|Hin].
    + rewrite decide_True by (apply list_elem_of_further; exact Hin). reflexivity.
    + rewrite decide_False by (intros [?|?]%elem_of_cons; [congruence | contradiction]).
      reflexivity.
Qed.

(** A list either has no item with a decidable property, or it has a last
    one. *)
Lemma last_occurrence {A : Type} (P : A → Prop) `{!∀ x, Decision (P x)} (l : list A) :
  (∀ x, x ∈ l → ¬ P x) ∨
  (∃ l1 x l2, l = (l1 ++ x :: l2)%list ∧ P x ∧ ∀ y, y ∈ l2 → ¬ P y).
Proof.
  induction l as [|a l IH].
  - left. intros x Hx. inversion Hx.
  - destruct IH as [Hnone|(l1 & x & l2 & -> & Hx & Hl2)].
    + destruct (decide (P a)) as [Ha|Ha].
      * right. exists [], a, l. auto.
      * left. intros x [->|Hx]%elem_of_cons; auto.
    + right. exists (a :: l1), x, l2. auto.
Qed.

(** A run of assignments leaves a path that none of them names as it was,
    and gives a path the value of the last assignment that names it. *)
Lemma assignments_elsewhere {A : Type} (key : A → string) (val : A → float)
    (l : list A) (output : list (string * float)) (p : string) :
  (∀ x, x ∈ l → key x ≠ p) →
  dict_getitem (foldl (λ out x, dict_set out (key x) (val x)) output l) p
  = dict_getitem output p.
Proof.
  revert output. induction l as [|a l IH]; intros output Hl; [reflexivity|].
  cbn [foldl]. rewrite IH by (intros x Hx; apply Hl, list_elem_of_further, Hx).
  apply dict_getitem_set_ne, Hl, list_elem_of_here.
Qed.

Lemma assignments_last {A : Type} (key : A → string) (val : A → float)
    (l1 l2 : list A) (x : A) (output : list (string * float)) :
  (∀ y, y ∈ l2 → key y ≠ key x) →
  dict_getitem (foldl (λ out x, dict_set out (key x) (val x)) output (l1 ++ x :: l2)) (key x)
  = Ret (val x).
Proof.
  intros Hl2. rewrite foldl_app. cbn [foldl].
  rewrite assignments_elsewhere by exact Hl2. apply dict_getitem_set.
Qed.

Lemma dict_set_NoDup (output : list (string * float)) (k : string) (v : float) :
  NoDup output.*1 → NoDup (dict_set output k v).*1.
Proof.
  intros Hnd. rewrite dict_set_keys. destruct (decide (k ∈ output.*1)); [exact Hnd|].
  apply NoDup_app. split; [exact Hnd|]. split; [|apply NoDup_singleton].
  intros x Hx ->%list_elem_of_singleton. contradiction.
Qed.

Lemma dict_getitem_NoDup (output : list (string * float)) (k : string) (v : float) :
  NoDup output.*1 → (k, v) ∈ output → dict_getitem output k = Ret v.
Proof.
  induction output as [|[k' v'] output IH]; [intros _ H; inversion H|].
  rewrite fmap_cons, NoDup_cons, elem_of_cons. cbn [fst dict_getitem].
  intros [Hfresh Hnd] [[= -> ->]|Hin].
  - rewrite String.eqb_refl. reflexivity.
  - destruct (String.eqb_spec k' k) as [->|Hne]; [|exact (IH Hnd Hin)].
    exfalso. apply Hfresh. apply list_elem_of_fmap.
    exists (k, v). split; [reflexivity | exact Hin].
Qed.

(** The keys of a dict, decorated with their values. *)
Lemma decorate_keys (output : list (string * float)) :
  NoDup output.*1 →
  mapM (λ x, k ← dict_getitem output x; mret (k, x)) output.*1 = Ret (prod_swap <$> output).
Proof.
  intros Hnd.
  assert (∀ l, (∀ kv, kv ∈ l → kv ∈ output) →
               mapM (λ x, k ← dict_getitem output x; mret (k, x)) l.*1
               = Ret (prod_swap <$> l)) as Hsub.
  { induction l as [|[k v] l IH]; intros Hl; [reflexivity|].
    rewrite !fmap_cons. cbn [fst mapM].
    rewrite (dict_getitem_NoDup output k v Hnd) by apply Hl, list_elem_of_here.
    cbn. rewrite IH by (intros kv Hkv; apply Hl, list_elem_of_further, Hkv).
    reflexivity. }
  apply Hsub. auto.
Qed.

Lemma assignments_NoDup {A : Type} (key : A → string) (val : A → float)
    (l : list A) (output : list (string * float)) :
  NoDup output.*1 →
  NoDup (foldl (λ out x, dict_set out (key x) (val x)) output l).*1.
Proof.
  revert output. induction l as [|x l IH]; intros output Hnd; [exact Hnd|].
  cbn [foldl]. apply IH, dict_set_NoDup, Hnd.
Qed.

Lemma prod_swap_swap {A B : Type} (l : list (A * B)) :
  prod_swap <$> (prod_swap <$> l) = l.
Proof.
  rewrite <- list_fmap_compose. rewrite <- (list_fmap_id l) at 2.
  apply list_fmap_ext. intros _ [a b] _. reflexivity.
Qed.

(* ===================================================================== *)
(** * Sorting *)
(* ===================================================================== *)

(** [<] on floats is asymmetric, NaN included. *)
Lemma SFcompare_antisym (a b : spec_float) :
  SFcompare b a = CompOpp <$> SFcompare a b.
Proof.
  destruct a as [sa|sa| |sa ma ea], b as [sb|sb| |sb mb eb]; cbn;
    try (destruct sa); try (destruct sb); try reflexivity;
    rewrite (Z.compare_antisym ea eb); destruct (ea ?= eb)%Z; cbn;
    try reflexivity;
    change (Pos.compare_cont Eq mb ma) with (Pos.compare_cont (CompOpp Eq) mb ma);
    rewrite <- (Pos.compare_cont_antisym ma mb Eq);
    destruct (Pos.compare_cont Eq ma mb); reflexivity.
Qed.

Lemma float_ltb_asym (x y : float) : (x <? y)%float = true → (y <? x)%float = false.
Proof.
  rewrite !FloatAxioms.ltb_spec. unfold SFltb.
  rewrite (SFcompare_antisym (Prim2SF x) (Prim2SF y)).
  destruct (SFcompare (Prim2SF x) (Prim2SF y)) as [[]|]; cbn; congruence.
Qed.

Lemma float_ltb_irrefl (x : float) : (x <? x)%float = false.
Proof.
  destruct (x <? x)%float eqn:H; [|reflexivity].
  rewrite (float_ltb_asym x x H) in H. discriminate.
Qed.

Section Sorting.

Context {A : Type}.
Implicit Types (x y a b : float * A) (l : list (float * A)).

Lemma insert_by_key_Permutation x l : insert_by_key x l ≡ₚ x :: l.
Proof.
  induction l as [|y l IH]; [reflexivity|]. simpl.
  destruct (y.1 <? x.1)%float; [|reflexivity].
  rewrite IH. apply Permutation_swap.
Qed.

Lemma sort_by_key_Permutation l : sort_by_key l ≡ₚ l.
Proof.
  induction l as [|x l IH]; [reflexivity|].
  unfold sort_by_key in *. cbn [foldr]. rewrite insert_by_key_Permutation, IH. reflexivity.
Qed.

Lemma insert_by_key_HdRel x y l :
  ascending y x → HdRel ascending y l → HdRel ascending y (insert_by_key x l).
Proof.
  intros Hyx Hl. destruct l as [|z l]; simpl.
  - constructor. exact Hyx.
  - destruct (z.1 <? x.1)%float; constructor; [|exact Hyx].
    inversion Hl; assumption.
Qed.

Lemma insert_by_key_Sorted x l :
  Sorted ascending l → Sorted ascending (insert_by_key x l).
Proof.
  induction 1 as [|y l Hl IH Hhd]; simpl.
  - repeat constructor.
  - destruct (y.1 <? x.1)%float eqn:Hyx.
    + constructor; [exact IH|]. apply insert_by_key_HdRel; [|exact Hhd].
      apply float_ltb_asym, Hyx.
    + constructor; [constructor; assumption|]. constructor. exact Hyx.
Qed.

Lemma sort_by_key_Sorted l : Sorted ascending (sort_by_key l).
Proof.
  induction l as [|x l IH]; [constructor|].
  apply insert_by_key_Sorted, IH.
Qed.

Lemma insert_keeps_before a b x l : before a b l → before a b (insert_by_key x l).
Proof.
  induction 1 as [l Hb|y l Hab IH]; simpl.
  - destruct (a.1 <? x.1)%float; [|apply before_later, before_here, Hb].
    apply before_here. rewrite insert_by_key_Permutation. apply list_elem_of_further, Hb.
  - destruct (y.1 <? x.1)%float; apply before_later; [exact IH|].
    apply before_later, Hab.
Qed.

Lemma insert_before x b l :
  b ∈ l → (b.1 <? x.1)%float = false → before x b (insert_by_key x l).
Proof.
  intros Hb Hbx. induction l as [|y l IH]; [inversion Hb|]. simpl.
  destruct (y.1 <? x.1)%float eqn:Hyx; [|apply before_here, Hb].
  apply before_later, IH.
  apply elem_of_cons in Hb as [->|Hb]; [congruence | exact Hb].
Qed.

Lemma sort_keeps_before a b l :
  before a b l → (b.1 <? a.1)%float = false → before a b (sort_by_key l).
Proof.
  intros Hab Hba. induction Hab as [l Hb|x l Hab IH].
  - apply insert_before; [|exact Hba]. rewrite sort_by_key_Permutation. exact Hb.
  - apply insert_keeps_before, IH.
Qed.

End Sorting.

Lemma before_split {A : Type} (a b : A) (l : list A) :
  before a b l ↔ ∃ l1 l2 l3, l = (l1 ++ a :: l2 ++ b :: l3)%list.
Proof.
  split.
  - induction 1 as [l Hb|x l Hab (l1 & l2 & l3 & ->)].
    + apply list_elem_of_split in Hb as (l2 & l3 & ->). exists [], l2, l3. reflexivity.
    + exists (x :: l1), l2, l3. reflexivity.
  - intros (l1 & l2 & l3 & ->). induction l1 as [|x l1 IH]; simpl.
    + apply before_here. apply elem_of_app. right. apply list_elem_of_here.
    + apply before_later, IH.
Qed.

Lemma before_reverse {A : Type} (a b : A) (l : list A) :
  before a b l → before b a (reverse l).
Proof.
  rewrite !before_split. intros (l1 & l2 & l3 & ->).
  exists (reverse l3), (reverse l2), (reverse l1).
  rewrite !reverse_app, !reverse_cons, !reverse_app, !reverse_cons, <- !app_assoc.
  reflexivity.
Qed.

Lemma before_fmap {A B : Type} (f : A → B) (a b : A) (l : list A) :
  before a b l → before (f a) (f b) (f <$> l).
Proof.
  rewrite !before_split. intros (l1 & l2 & l3 & ->).
  exists (f <$> l1), (f <$> l2), (f <$> l3).
  rewrite !fmap_app, !fmap_cons, !fmap_app, !fmap_cons. reflexivity.
Qed.

Lemma decorate_items {A : Type} (key : A → result float) (items : list A)
    (decorated : list (float * A)) :
  mapM (λ x, k ← key x; mret (k, x)) items = Ret decorated → decorated.*2 = items.
Proof.
  revert decorated. induction items as [|x items IH]; intros decorated; cbn.
  - intros [= <-]. reflexivity.
  - destruct (key x) as [k|err]; cbn; [|discriminate].
    destruct (mapM _ items) as [rest|err]; cbn; [|discriminate].
    intros [= <-]. cbn. rewrite (IH rest eq_refl). reflexivity.
Qed.

(** What [sorted(..., reverse=True)] returns: the decorated items in an
    order that is descending by key and keeps an item before another when
    its key is not the smaller one. *)
Lemma sorted_reverse_ranked {A : Type} (key : A → result float) (items sorted : list A) :
  sorted_reverse key items = Ret sorted →
  ∃ decorated ranked,
    mapM (λ x, k ← key x; mret (k, x)) items = Ret decorated ∧
    sorted = ranked.*2 ∧
    ranked ≡ₚ decorated ∧
    Sorted descending ranked ∧
    ∀ a b, before a b decorated → (a.1 <? b.1)%float = false → before a b ranked.
Proof.
  unfold sorted_reverse.
  destruct (mapM _ items) as [decorated|err]; cbn; [|discriminate].
  intros [= <-]. exists decorated, (reverse (sort_by_key (reverse decorated))).
  split; [reflexivity|]. split; [reflexivity|]. split; [|split].
  - rewrite reverse_Permutation, sort_by_key_Permutation, reverse_Permutation.
    reflexivity.
  - apply (Sorted_reverse ascending), sort_by_key_Sorted.
  - intros a b Hab Hkeys.
    apply before_reverse, sort_keeps_before; [|exact Hkeys].
    apply before_reverse, Hab.
Qed.

(** [sorted] returns the items it was given, in some order. *)
Lemma sorted_reverse_Permutation {A : Type} (key : A → result float)
    (items sorted : list A) :
  sorted_reverse key items = Ret sorted → sorted ≡ₚ items.
Proof.
  intros Hsorted.
  destruct (sorted_reverse_ranked _ _ _ Hsorted)
    as (decorated & ranked & Hdec & -> & Hperm & _).
  rewrite <- (decorate_items key items decorated Hdec).
  apply fmap_Permutation, Hperm.
Qed.

(* ===================================================================== *)
(** * Lookups and queries *)
(* ===================================================================== *)

Lemma built_keys (path : string) (listing : list (string * string))
    (extension : string) (e : SearchEngine) (docs : list Document) (w : string) :
  SearchEngine_init path listing extension = Ret e →
  loaded_documents path listing extension = Ret docs →
  w ∈ dom (inverted_index e) ↔ ∃ d, d ∈ docs ∧ w ∈ get_words d.
Proof.
  intros He Hd.
  destruct (SearchEngine_init_returns path listing extension)
    as (e' & docs' & He' & Hd' & _ & Hlook).
  rewrite He in He'. rewrite Hd in Hd'.
  injection He' as <-. injection Hd' as <-.
  rewrite elem_of_dom, Hlook. split.
  - intros [l Hl]. destruct (containing w docs) as [|d ds] eqn:Hc; [discriminate|].
    assert (d ∈ containing w docs) as Hin by (rewrite Hc; apply list_elem_of_here).
    apply list_elem_of_filter in Hin as [Hw Hin]. exists d. split; assumption.
  - intros (d & Hin & Hw).
    assert (d ∈ containing w docs) as Hc
      by (apply list_elem_of_filter; split; assumption).
    destruct (containing w docs); [inversion Hc | eexists; reflexivity].
Qed.

Section Queries.

Variable libm_log : float → float.

(** With no file recorded the quotient is 0.0, and its logarithm is a
    domain error. *)
Lemma idf_without_files (self : SearchEngine) (term : string) (postings : list Document) :
  files self = [] → inverted_index self !! term = Some postings → postings ≠ [] →
  _calculate_idf libm_log self term = Raise ValueError.
Proof.
  intros Hf Hp Hne. unfold _calculate_idf. rewrite Hp, Hf.
  destruct postings as [|d ds]; [contradiction|]. reflexivity.
Qed.

Lemma idf_raises_on_built (path : string) (listing : list (string * string))
    (extension : string) (e : SearchEngine) (term : string) :
  SearchEngine_init path listing extension = Ret e →
  term ∈ dom (inverted_index e) →
  ∃ d ds, inverted_index e !! term = Some (d :: ds) ∧
          _calculate_idf libm_log e term = Raise ValueError.
Proof.
  intros He [postings Hp]%elem_of_dom.
  destruct (SearchEngine_init_returns path listing extension) as (e' & docs & He' & Hd & _).
  rewrite He in He'. injection He' as <-.
  destruct (built_postings _ _ _ _ _ _ _ He Hd Hp) as [_ Hne].
  destruct postings as [|d ds]; [contradiction|].
  exists d, ds. split; [exact Hp|].
  apply (idf_without_files e term (d :: ds)); [|exact Hp|exact Hne].
  exact (built_files _ _ _ _ He).
Qed.

Lemma score_word_absent (self : SearchEngine) (output : list (string * float))
    (word : string) :
  clean word ∉ dom (inverted_index self) → score_word libm_log self output word = Ret output.
Proof.
  intros Hw. unfold score_word.
  apply not_elem_of_dom in Hw. rewrite Hw. reflexivity.
Qed.

Lemma score_posting_raises (self : SearchEngine) (term : string)
    (output : list (string * float)) (file : Document) (err : exn) :
  _calculate_idf libm_log self term = Raise err →
  score_posting libm_log self term output file = Raise err.
Proof. intros Hidf. unfold score_posting. rewrite Hidf. reflexivity. Qed.

Lemma score_word_raises (self : SearchEngine) (output : list (string * float))
    (word : string) (d : Document) (ds : list Document) :
  inverted_index self !! clean word = Some (d :: ds) →
  _calculate_idf libm_log self (clean word) = Raise ValueError →
  score_word libm_log self output word = Raise ValueError.
Proof.
  intros Hp Hidf. unfold score_word. rewrite Hp.
  rewrite for_each_cons, (score_posting_raises _ _ _ _ _ Hidf). reflexivity.
Qed.

(** The loop over the words leaves [output] alone when no word has an
    entry, and stops with the error of the first word that has one when
    every present word makes the idf raise. *)
Lemma scoring_unmatched (self : SearchEngine) (words : list string)
    (output : list (string * float)) :
  (∀ word, word ∈ words → clean word ∉ dom (inverted_index self)) →
  for_each (score_word libm_log self) words output = Ret output.
Proof.
  induction words as [|word words IH]; intros Hun; [reflexivity|].
  rewrite for_each_cons, score_word_absent by (apply Hun, list_elem_of_here).
  apply IH. intros w Hw. apply Hun, list_elem_of_further, Hw.
Qed.

Lemma scoring_raises (self : SearchEngine) (words : list string)
    (output : list (string * float)) :
  (∀ term, term ∈ dom (inverted_index self) →
     ∃ d ds, inverted_index self !! term = Some (d :: ds) ∧
             _calculate_idf libm_log self term = Raise ValueError) →
  (∃ word, word ∈ words ∧ clean word ∈ dom (inverted_index self)) →
  for_each (score_word libm_log self) words output = Raise ValueError.
Proof.
  intros Hidf. induction words as [|word words IH]; intros (w & Hw & Hin).
  - inversion Hw.
  - rewrite for_each_cons.
    destruct (decide (clean word ∈ dom (inverted_index self))) as [Hpres|Habs].
    + destruct (Hidf _ Hpres) as (d & ds & Hp & Hraise).
      rewrite (score_word_raises _ _ _ _ _ Hp Hraise). reflexivity.
    + rewrite (score_word_absent _ _ _ Habs). apply IH.
      apply elem_of_cons in Hw as [->|Hw]; [contradiction|].
      exists w. split; assumption.
Qed.

Lemma score_posting_returns (self : SearchEngine) (term : string)
    (output : list (string * float)) (file : Document) (idf : number) :
  _calculate_idf libm_log self term = Ret idf →
  score_posting libm_log self term output file
  = Ret (dict_set output (get_path file) (float_mul (term_frequency file term) idf)).
Proof.
  intros Hidf. unfold score_posting. rewrite Hidf.
  transitivity (Ret (dict_set (dict_set output (get_path file) (float_of_int 0))
                       (get_path file) (float_mul (term_frequency file term) idf)));
    [reflexivity|].
  rewrite dict_set_set. reflexivity.
Qed.

(** An assignment to [output[p]] replaces what was stored at [p]: when the
    idf is a number, the score of the posting is what [output] holds for
    the path afterwards, whatever it held before. *)
Lemma score_posting_overwrites (self : SearchEngine) (term : string)
    (output : list (string * float)) (file : Document) (idf : number) :
  _calculate_idf libm_log self term = Ret idf →
  ∃ output', score_posting libm_log self term output file = Ret output' ∧
             dict_getitem output' (get_path file)
             = Ret (float_mul (term_frequency file term) idf).
Proof.
  intros Hidf. rewrite (score_posting_returns _ _ _ _ _ Hidf).
  eexists. split; [reflexivity|]. apply dict_getitem_set.
Qed.

(** When the idf of the term is a number, the loop over the posting list
    is a run of assignments [output[path] = tf * idf]. *)
Lemma posting_loop (self : SearchEngine) (term : string) (idf : number)
    (postings : list Document) (output : list (string * float)) :
  _calculate_idf libm_log self term = Ret idf →
  for_each (score_posting libm_log self term) postings output
  = Ret (foldl (λ out file, dict_set out (get_path file)
                              (float_mul (term_frequency file term) idf))
               output postings).
Proof.
  intros Hidf. revert output.
  induction postings as [|file postings IH]; intros output; [reflexivity|].
  rewrite for_each_cons, (score_posting_returns _ _ _ _ _ Hidf). apply IH.
Qed.

(** A posting loop that returns over a non-empty list had a number for
    the idf. *)
Lemma posting_loop_returns (self : SearchEngine) (term : string)
    (postings : list Document) (output output' : list (string * float)) :
  postings ≠ [] →
  for_each (score_posting libm_log self term) postings output = Ret output' →
  ∃ idf, _calculate_idf libm_log self term = Ret idf.
Proof.
  destruct postings as [|file postings]; [contradiction|]. intros _.
  rewrite for_each_cons.
  destruct (_calculate_idf libm_log self term) as [idf|err] eqn:Hidf; [eauto|].
  rewrite (score_posting_raises _ _ _ _ _ Hidf). discriminate.
Qed.

(** The score that stands for a path when the loop over the words returns:
    either no posting of any word has the path, and its entry is as before
    the loop; or the entry is [tf * idf] of the last posting with that
    path in the posting list of the last word that has one. *)
Lemma scoring_keeps_last (self : SearchEngine) (words : list string)
    (output0 output : list (string * float)) (p : string) :
  for_each (score_word libm_log self) words output0 = Ret output →
  (dict_getitem output p = dict_getitem output0 p ∧
   ∀ word file, word ∈ words →
     file ∈ default [] (inverted_index self !! clean word) → get_path file ≠ p)
  ∨
  (∃ ws1 word ws2 fs1 file fs2 idf,
     words = (ws1 ++ word :: ws2)%list ∧
     inverted_index self !! clean word = Some (fs1 ++ file :: fs2)%list ∧
     get_path file = p ∧
     (∀ f, f ∈ fs2 → get_path f ≠ p) ∧
     (∀ w f, w ∈ ws2 →
        f ∈ default [] (inverted_index self !! clean w) → get_path f ≠ p) ∧
     _calculate_idf libm_log self (clean word) = Ret idf ∧
     dict_getitem output p = Ret (float_mul (term_frequency file (clean word)) idf)).
Proof.
  revert output0. induction words as [|word words IH]; intros output0 Hrun.
  - injection Hrun as <-. left. split; [reflexivity|]. intros w f Hw. inversion Hw.
  - rewrite for_each_cons in Hrun.
    destruct (score_word libm_log self output0 word) as [output1|err] eqn:Hword;
      [|discriminate].
    cbn in Hrun. destruct (IH output1 Hrun) as [[Hsame Hnone]|Hlast].
    + unfold score_word in Hword.
      destruct (inverted_index self !! clean word) as [postings|] eqn:Hp.
      * destruct (last_occurrence (λ f, get_path f = p) postings)
          as [Hno|(fs1 & file & fs2 & -> & Hfile & Hfs2)].
        -- left. split.
           ++ rewrite Hsame. destruct (decide (postings = [])) as [->|Hne].
              ** injection Hword as <-. reflexivity.
              ** destruct (posting_loop_returns _ _ _ _ _ Hne Hword) as [idf Hidf].
                 rewrite (posting_loop _ _ _ _ _ Hidf) in Hword.
                 injection Hword as Hout. rewrite <- Hout.
                 exact (assignments_elsewhere get_path _ postings output0 p Hno).
           ++ intros w f [->|Hw]%elem_of_cons Hf; [|exact (Hnone w f Hw Hf)].
              rewrite Hp in Hf. exact (Hno f Hf).
        -- right.
           assert ((fs1 ++ file :: fs2)%list ≠ []) as Hne by (destruct fs1; discriminate).
           destruct (posting_loop_returns _ _ _ _ _ Hne Hword) as [idf Hidf].
           rewrite (posting_loop _ _ _ _ _ Hidf) in Hword.
           injection Hword as Hout.
           exists [], word, words, fs1, file, fs2, idf.
           repeat split; try assumption.
           rewrite Hsame, <- Hout. subst p.
           apply (assignments_last get_path
                    (λ f, float_mul (term_frequency f (clean word)) idf) fs1 fs2 file).
           exact Hfs2.
      * injection Hword as <-. left. split; [exact Hsame|].
        intros w f [->|Hw]%elem_of_cons Hf; [|exact (Hnone w f Hw Hf)].
        rewrite Hp in Hf. inversion Hf.
    + right. destruct Hlast as (ws1 & w & ws2 & fs1 & file & fs2 & idf & -> & Hrest).
      exists (word :: ws1), w, ws2, fs1, file, fs2, idf. split; [reflexivity | exact Hrest].
Qed.

Lemma scoring_NoDup (self : SearchEngine) (words : list string)
    (output0 output : list (string * float)) :
  for_each (score_word libm_log self) words output0 = Ret output →
  NoDup output0.*1 → NoDup output.*1.
Proof.
  revert output0. induction words as [|word words IH]; intros output0 Hrun Hnd.
  - injection Hrun as <-. exact Hnd.
  - rewrite for_each_cons in Hrun.
    destruct (score_word libm_log self output0 word) as [output1|err] eqn:Hword;
      [|discriminate].
    apply (IH output1 Hrun). unfold score_word in Hword.
    destruct (inverted_index self !! clean word) as [postings|];
      [|injection Hword as <-; exact Hnd].
    destruct (decide (postings = [])) as [->|Hne]; [injection Hword as <-; exact Hnd|].
    destruct (posting_loop_returns _ _ _ _ _ Hne Hword) as [idf Hidf].
    rewrite (posting_loop _ _ _ _ _ Hidf) in Hword. injection Hword as <-.
    apply assignments_NoDup, Hnd.
Qed.

(** When [search] returns, the paths are the keys of the accumulator in
    an order that is descending by score and keeps a path before another
    that was inserted later unless its score is the smaller one. *)
Lemma search_ranking (self : SearchEngine) (query : string) (paths : list string) :
  search libm_log self query = Ret paths →
  ∃ output ranked,
    for_each (score_word libm_log self) (split query) [] = Ret output ∧
    paths = ranked.*1 ∧
    ranked ≡ₚ output ∧
    Sorted (λ a b, (a.2 <? b.2)%float = false) ranked ∧
    ∀ a b, before a b output → (a.2 <? b.2)%float = false → before a b ranked.
Proof.
  unfold search.
  destruct (for_each _ (split query) []) as [output|err] eqn:Hrun; [|discriminate].
  cbn. intros Hsorted.
  destruct (sorted_reverse_ranked _ _ _ Hsorted)
    as (decorated & ranked & Hdec & -> & Hperm & Hdesc & Hstable).
  rewrite decorate_keys in Hdec by (apply (scoring_NoDup _ _ _ _ Hrun); constructor).
  injection Hdec as <-.
  exists output, (prod_swap <$> ranked). split; [reflexivity|]. split; [|split; [|split]].
  - rewrite <- list_fmap_compose. apply list_fmap_ext. intros _ [k x] _. reflexivity.
  - rewrite Hperm. rewrite prod_swap_swap. reflexivity.
  - apply (Sorted_fmap prod_swap descending); [|exact Hdesc].
    intros [k1 x1] [k2 x2] H. exact H.
  - intros [p1 s1] [p2 s2] Hab Hs.
    apply (before_fmap prod_swap (s1, p1) (s2, p2)), Hstable; [|exact Hs].
    apply (before_fmap prod_swap (p1, s1) (p2, s2)), Hab.
Qed.

End Queries.

(* ===================================================================== *)
(** * The specification's statements *)
(* ===================================================================== *)

(** C6: for every directory the constructor returns, and the keys of the
    inverted index are exactly the union of [get_words()] over the
    Documents it constructed. *)
Theorem inverted_index_keys (path : string) (listing : list (string * string))
    (extension : string) :
  ∃ e docs,
    SearchEngine_init path listing extension = Ret e ∧
    loaded_documents path listing extension = Ret docs ∧
    dom (inverted_index e) = ⋃ (get_words <$> docs).
Proof.
  destruct (SearchEngine_init_returns path listing extension)
    as (e & docs & He & Hd & _).
  exists e, docs. split; [exact He|]. split; [exact Hd|].
  apply set_eq. intros w.
  rewrite (built_keys _ _ _ _ _ w He Hd), elem_of_union_list. split.
  - intros (d & Hin & Hw). exists (get_words d). split; [|exact Hw].
    apply list_elem_of_fmap. exists d. split; [reflexivity | exact Hin].
  - intros (X & HX & Hw). apply list_elem_of_fmap in HX as (d & -> & Hin).
    exists d. split; assumption.
Qed.

(** C7: [term_frequency] of a term whose normal form is not a word of the
    document is 0.0, and [_calculate_idf] of a term that is not a key of the
    inverted index returns the number 0 (the int [0], equal to 0.0);
    neither raises. *)
Theorem unknown_terms_are_zero (libm_log : float → float) (d : Document)
    (e : SearchEngine) (term term' : string) :
  clean term ∉ get_words d →
  term' ∉ dom (inverted_index e) →
  term_frequency d term = 0%float ∧
  _calculate_idf libm_log e term' = Ret (PyInt 0) ∧
  as_float (PyInt 0) = 0%float.
Proof.
  intros Hd He. unfold get_words in Hd.
  apply not_elem_of_dom in Hd. apply not_elem_of_dom in He.
  unfold term_frequency, _calculate_idf. rewrite Hd, He. repeat split.
Qed.

Lemma unknown_terms_are_zero_witness :
  term_frequency doc_a "Cats!" = 0%float ∧
  _calculate_idf log_fixture corpus_engine "bird" = Ret (PyInt 0) ∧
  as_float (PyInt 0) = 0%float.
Proof.
  apply (unknown_terms_are_zero log_fixture doc_a corpus_engine "Cats!" "bird").
  - apply not_elem_of_dom. vm_compute. reflexivity.
  - apply not_elem_of_dom. vm_compute. reflexivity.
Defined.

(** C8: a query that is empty, or none of whose normalized terms is a key
    of the inverted index, makes [search] return the empty list. *)
Theorem unmatched_query_returns_nothing (libm_log : float → float)
    (e : SearchEngine) (query : string) :
  query = "" ∨ (∀ word, word ∈ split query → clean word ∉ dom (inverted_index e)) →
  search libm_log e query = Ret [].
Proof.
  intros Hq. unfold search. rewrite scoring_unmatched; [reflexivity|].
  destruct Hq as [->|Hq]; [|exact Hq].
  intros word Hw. inversion Hw.
Qed.

Lemma unmatched_query_returns_nothing_witness :
  search log_fixture corpus_engine "" = Ret [] ∧
  search log_fixture corpus_engine "Bird, z?  !!" = Ret [].
Proof.
  split.
  - apply (unmatched_query_returns_nothing log_fixture corpus_engine ""). left. reflexivity.
  - apply (unmatched_query_returns_nothing log_fixture corpus_engine "Bird, z?  !!").
    right. intros word Hw. apply not_elem_of_dom.
    change (split "Bird, z?  !!") with ["Bird,"; "z?"; "!!"] in Hw.
    repeat (apply elem_of_cons in Hw as [->|Hw]; [vm_compute; reflexivity|]).
    inversion Hw.
Defined.

(** C9: a file with no token gives a Document with an empty table, and
    no exception; every term has frequency 0.0 in it, and it is in no
    posting list of any index, so no query term reaches it. *)
Theorem tokenless_document (filename content : string) :
  split content = [] →
  ∃ d, Document_init filename content = Ret d ∧
       frequency d = ∅ ∧
       (∀ term, term_frequency d term = 0%float) ∧
       (∀ path listing extension e term postings,
          SearchEngine_init path listing extension = Ret e →
          inverted_index e !! term = Some postings → d ∉ postings).
Proof.
  intros Hsplit. eexists. split; [apply Document_init_returns|].
  rewrite Hsplit. cbn [foldl]. rewrite fmap_empty. split; [reflexivity|]. split.
  - intros term. reflexivity.
  - intros path listing extension e term postings He Hp Hin.
    destruct (SearchEngine_init_returns path listing extension) as (e' & docs & He' & Hd & _).
    rewrite He in He'. injection He' as <-.
    destruct (built_postings _ _ _ _ _ _ _ He Hd Hp) as [-> _].
    apply list_elem_of_filter in Hin as [Hw _].
    unfold get_words in Hw. cbn in Hw. rewrite dom_empty_L in Hw.
    exact (not_elem_of_empty _ Hw).
Qed.

Lemma tokenless_document_witness :
  ∃ d, Document_init "corpus/blank.txt" " 
	 " = Ret d ∧
       frequency d = ∅ ∧
       (∀ term, term_frequency d term = 0%float) ∧
       (∀ path listing extension e term postings,
          SearchEngine_init path listing extension = Ret e →
          inverted_index e !! term = Some postings → d ∉ postings).
Proof. apply (tokenless_document "corpus/blank.txt"). reflexivity. Defined.

(** C10: after construction [files] is empty; hence [_calculate_idf]
    raises for every key of the inverted index, and [search] raises for
    every query with a word whose normal form is a word of some loaded
    document. *)
Theorem built_engine_cannot_score (libm_log : float → float) (path : string)
    (listing : list (string * string)) (extension : string) (e : SearchEngine) :
  SearchEngine_init path listing extension = Ret e →
  files e = [] ∧
  (∀ term, term ∈ dom (inverted_index e) →
     _calculate_idf libm_log e term = Raise ValueError) ∧
  (∀ docs d query word,
     loaded_documents path listing extension = Ret docs →
     d ∈ docs → word ∈ split query → clean word ∈ get_words d →
     search libm_log e query = Raise ValueError).
Proof.
  intros He. split; [exact (built_files _ _ _ _ He)|]. split.
  - intros term Hterm.
    destruct (idf_raises_on_built libm_log _ _ _ _ _ He Hterm) as (_ & _ & _ & Hraise).
    exact Hraise.
  - intros docs d query word Hd Hin Hword Hw. unfold search.
    rewrite scoring_raises; [reflexivity | |].
    + intros term Hterm. exact (idf_raises_on_built libm_log _ _ _ _ _ He Hterm).
    + exists word. split; [exact Hword|].
      apply (built_keys _ _ _ _ _ (clean word) He Hd). exists d. split; assumption.
Qed.

Lemma built_engine_cannot_score_witness :
  files corpus_engine = [] ∧
  _calculate_idf log_fixture corpus_engine "y" = Raise ValueError ∧
  search log_fixture corpus_engine "why Y?" = Raise ValueError.
Proof.
  assert (SearchEngine_init "corpus" corpus ".txt" = Ret corpus_engine) as He
    by (vm_compute; reflexivity).
  destruct (built_engine_cannot_score log_fixture "corpus" corpus ".txt" corpus_engine He)
    as (Hfiles & Hidf & Hsearch).
  split; [exact Hfiles|]. split.
  - apply Hidf. apply elem_of_dom. vm_compute. eexists. reflexivity.
  - apply (Hsearch [doc_a; doc_b] doc_b "why Y?" "Y?").
    + vm_compute. reflexivity.
    + apply list_elem_of_further, list_elem_of_here.
    + apply list_elem_of_further, list_elem_of_here.
    + apply elem_of_dom. vm_compute. eexists. reflexivity.
Defined.

(* ===================================================================== *)
(** * Where the code departs from its documentation *)
(* ===================================================================== *)

(** C1: for the content "a a" the term "a" has two of two tokens, which
    the documented frequency gives as 1.0; the constructor stores 0.5,
    because the increment is inside the [if] that creates the entry. *)
Theorem repeated_token_counted_once :
  occurrences (split "a a") "a" = 2 ∧
  length (split "a a") = 2 ∧
  described_frequency "a a" "a" = Ret 1%float ∧
  (d ← Document_init "doc.txt" "a a"; mret (term_frequency d "a")) = Ret 0.5%float.
Proof. repeat split; vm_compute; reflexivity. Qed.

(** C4: for the content "a a" (N = 2) the sum of
    [term_frequency(term) * N] over the words of the document is 1.0, not
    N. *)
Theorem repeated_token_mass :
  length (split "a a") = 2 ∧
  (d ← Document_init "doc.txt" "a a"; mret (frequency_mass d 2)) = Ret 1%float ∧
  1%float ≠ float_of_int 2.
Proof.
  repeat split; try (vm_compute; reflexivity).
  intros H. apply (f_equal (PrimFloat.eqb 1%float)) in H.
  vm_compute in H. discriminate H.
Qed.

(** C2: in a directory with the one file "x", the term "x" is in the one
    loaded document and in a posting list of length one, so the documented
    idf is log(1/1); [_calculate_idf] raises, because [files] is empty. *)
Theorem idf_of_present_term_raises (libm_log : float → float) :
  (docs ← loaded_documents "d" [("a.txt", "x")] ".txt"; mret (length docs)) = Ret 1 ∧
  (e ← SearchEngine_init "d" [("a.txt", "x")] ".txt";
   mret (length <$> inverted_index e !! "x")) = Ret (Some 1) ∧
  (e ← SearchEngine_init "d" [("a.txt", "x")] ".txt";
   _calculate_idf libm_log e "x") = Raise ValueError.
Proof. repeat split; vm_compute; reflexivity. Qed.

(** C3: in a directory with the one file "x y", the query "x y" matches
    the document by both terms; [search] records no score and returns no
    path, it raises. *)
Theorem matching_query_raises (libm_log : float → float) :
  (e ← SearchEngine_init "d" [("a.txt", "x y")] ".txt";
   mret (fmap (M := list) get_path <$> inverted_index e !! "x",
         fmap (M := list) get_path <$> inverted_index e !! "y"))
  = Ret (Some ["d/a.txt"], Some ["d/a.txt"]) ∧
  (e ← SearchEngine_init "d" [("a.txt", "x y")] ".txt"; search libm_log e "x y")
  = Raise ValueError.
Proof. repeat split; vm_compute; reflexivity. Qed.

(* ===================================================================== *)
(** * Further properties of the code *)
(* ===================================================================== *)

Lemma lower_char_is_term_char (c : ascii) :
  is_word c = true → is_term_char (lower_char c) = true.
Proof. destruct c as [[] [] [] [] [] [] [] []]; vm_compute; intros H; congruence. Qed.

Lemma lower_char_of_term_char (c : ascii) :
  is_term_char c = true → lower_char c = c.
Proof. destruct c as [[] [] [] [] [] [] [] []]; vm_compute; intros H; congruence. Qed.

Lemma lower_char_fixed_not_upper (c : ascii) :
  lower_char c = c → is_upper c = false.
Proof. destruct c as [[] [] [] [] [] [] [] []]; vm_compute; intros H; congruence. Qed.

Lemma clean_is_term (t : string) : is_term (clean t) = true.
Proof.
  induction t as [|c t IH]; [reflexivity|].
  rewrite clean_cons. destruct (is_word c) eqn:Hw; [|exact IH].
  cbn [is_term all_chars]. rewrite (lower_char_is_term_char c Hw). exact IH.
Qed.

Lemma clean_of_term (t : string) : is_term t = true → clean t = t.
Proof.
  induction t as [|c t IH]; [reflexivity|].
  cbn [is_term all_chars]. intros [Hc Ht]%andb_prop.
  rewrite clean_cons. unfold is_term_char in Hc. apply andb_prop in Hc as Hc'.
  destruct Hc' as [Hw _]. rewrite Hw, (lower_char_of_term_char c Hc), (IH Ht).
  reflexivity.
Qed.


(** X1: the result of [clean] has only word characters that are not
    capitals, and the strings [clean] leaves unchanged are exactly the
    strings of such characters. *)
Theorem clean_normal_forms (t : string) :
  is_term (clean t) = true ∧ (clean t = t ↔ is_term t = true).
Proof.
  split; [apply clean_is_term|]. split; [|apply clean_of_term].
  intros <-. apply clean_is_term.
Qed.



(** X3: the constructor returns for every content; the Document keeps
    the path it was given and its words are the normalized tokens of the
    content. *)
Theorem Document_init_postconditions (filename content : string) :
  ∃ d, Document_init filename content = Ret d ∧
       get_path d = filename ∧
       get_words d = list_to_set (clean <$> split content).
Proof.
  eexists. split; [apply Document_init_returns|]. split; [reflexivity|].
  apply (Document_init_words filename content), Document_init_returns.
Qed.

(** X4: [term_frequency] gives every term whose normal form is a
    normalized token of the document the same value, 1.0 / len(tokens),
    and every other term 0.0. *)
Theorem term_frequency_is_uniform (filename content : string) (d : Document)
    (term : string) :
  Document_init filename content = Ret d →
  term_frequency d term =
  if decide (clean term ∈ clean <$> split content)
  then (1 / float_of_int (Z.of_nat (length (split content))))%float
  else 0%float.
Proof.
  intros Hd. unfold term_frequency.
  rewrite (Document_init_frequency _ _ _ _ Hd).
  destruct (decide (clean term ∈ clean <$> split content)); reflexivity.
Qed.

Lemma term_frequency_is_uniform_witness :
  term_frequency doc_a "X!" =
  if decide (clean "X!" ∈ clean <$> split "x y")
  then (1 / float_of_int (Z.of_nat (length (split "x y"))))%float
  else 0%float.
Proof.
  apply (term_frequency_is_uniform "corpus/a.txt" "x y" doc_a "X!").
  vm_compute. reflexivity.
Defined.





(** X8: when no two tokens of the content have the same normal form, the
    frequency of every word is the documented one: its number of
    occurrences divided by the number of tokens. *)
Theorem frequency_of_distinct_tokens (filename content : string) (d : Document)
    (term : string) :
  NoDup (clean <$> split content) →
  Document_init filename content = Ret d →
  clean term ∈ get_words d →
  described_frequency content (clean term) = Ret (term_frequency d term).
Proof.
  intros Hnd Hd Hw. unfold get_words in Hw. apply elem_of_dom in Hw as [v Hv].
  rewrite (frequency_without_repeats _ _ _ _ _ Hnd Hd Hv).
  unfold term_frequency. rewrite Hv. reflexivity.
Qed.

Lemma length_append (a b : string) :
  String.length (a +:+ b) = String.length a + String.length b.
Proof.
  induction a as [|c a IH]; [reflexivity|].
  change (String c a +:+ b) with (String c (a +:+ b)).
  cbn [String.length]. rewrite IH. reflexivity.
Qed.

Lemma append_inj_r (a b s : string) : a +:+ s = b +:+ s → a = b.
Proof.
  revert b. induction a as [|c a IH]; intros [|c' b] H.
  - reflexivity.
  - apply (f_equal String.length) in H. rewrite !length_append in H. cbn [String.length] in H. lia.
  - apply (f_equal String.length) in H. rewrite !length_append in H. cbn [String.length] in H. lia.
  - injection H as -> H. rewrite (IH b H). reflexivity.
Qed.

(** X9: the two [__repr__] methods are injective in the path: equal
    representations come from equal paths. *)
Theorem repr_determines_path :
  (∀ d1 d2, Document_repr d1 = Document_repr d2 → get_path d1 = get_path d2) ∧
  (∀ e1 e2, SearchEngine_repr e1 = SearchEngine_repr e2 → path e1 = path e2).
Proof.
  split.
  - intros d1 d2 H. unfold Document_repr in H.
    apply (String.app_inj "Document('{") in H. exact (append_inj_r _ _ _ H).
  - intros e1 e2 H. unfold SearchEngine_repr in H.
    apply (String.app_inj "SearchEngine('{") in H. exact (append_inj_r _ _ _ H).
Qed.

Lemma load_one_selected (path extension name content : string) (file : Document) :
  endswith name extension = true →
  Document_init (path_join path name) content = Ret file →
  load_one path extension (name, content) = Some file.
Proof. intros Hsel Hfile. unfold load_one. cbn [fst snd]. rewrite Hsel, Hfile. reflexivity. Qed.

Lemma load_one_skipped (path extension name content : string) :
  endswith name extension = false → load_one path extension (name, content) = None.
Proof. intros Hsel. unfold load_one. cbn [fst snd]. rewrite Hsel. reflexivity. Qed.

Lemma omap_cons_eq {A B : Type} (f : A → option B) (x : A) (l : list A) :
  omap f (x :: l) = match f x with Some y => y :: omap f l | None => omap f l end.
Proof. reflexivity. Qed.

Lemma loaded_closed (path extension : string) (listing : list (string * string))
    (docs0 : list Document) :
  for_each (load_entry path extension) listing docs0
  = Ret (docs0 ++ omap (load_one path extension) listing)%list.
Proof.
  revert docs0. induction listing as [|[name content] listing IH]; intros docs0.
  - cbn. rewrite app_nil_r. reflexivity.
  - rewrite for_each_cons, omap_cons_eq.
    destruct (endswith name extension) eqn:Hsel.
    + pose proof (Document_init_returns (path_join path name) content) as Hfile.
      rewrite (load_entry_selected _ _ _ _ _ _ Hsel Hfile).
      rewrite (load_one_selected _ _ _ _ _ Hsel Hfile). cbn.
      rewrite IH, <- app_assoc. reflexivity.
    + rewrite (load_entry_skipped _ _ _ _ _ Hsel), (load_one_skipped _ _ _ _ Hsel).
      cbn. apply IH.
Qed.

Lemma loaded_documents_closed (path : string) (listing : list (string * string))
    (extension : string) :
  loaded_documents path listing extension = Ret (omap (load_one path extension) listing).
Proof. unfold loaded_documents. rewrite loaded_closed. reflexivity. Qed.


(** The index of a constructed engine, by the loaded documents. *)
Lemma built_index (path : string) (listing : list (string * string)) (extension : string) :
  ∃ e, SearchEngine_init path listing extension = Ret e ∧
       ∀ w, inverted_index e !! w =
            extend_postings None (containing w (omap (load_one path extension) listing)).
Proof.
  destruct (SearchEngine_init_returns path listing extension)
    as (e & docs & He & Hd & _ & Hlook).
  rewrite loaded_documents_closed in Hd. injection Hd as <-.
  exists e. split; assumption.
Qed.

Lemma extend_postings_None (ds : list Document) :
  default [] (extend_postings None ds) = ds.
Proof. destruct ds; reflexivity. Qed.

(** X10: in a constructed engine the entry of a word is the list of the
    loaded Documents that have the word, in the order of the listing; a
    word that no Document has is no key. *)
Theorem posting_lists_of_loaded_documents (path : string)
    (listing : list (string * string)) (extension : string) :
  ∃ e docs,
    SearchEngine_init path listing extension = Ret e ∧
    loaded_documents path listing extension = Ret docs ∧
    ∀ w, inverted_index e !! w =
         match filter (λ d, w ∈ get_words d) docs with
         | [] => None
         | d :: ds => Some (d :: ds)
         end.
Proof.
  destruct (SearchEngine_init_returns path listing extension)
    as (e & docs & He & Hd & _ & Hlook).
  exists e, docs. split; [exact He|]. split; [exact Hd|].
  intros w. rewrite Hlook. unfold containing.
  destruct (filter _ docs); reflexivity.
Qed.

Lemma index_only_selected (path extension : string) (listing : list (string * string))
    (idx : gmap string (list Document)) :
  for_each (index_entry path extension) listing idx
  = for_each (index_entry path extension)
             (filter (λ entry, endswith entry.1 extension = true) listing) idx.
Proof.
  revert idx. induction listing as [|[name content] listing IH]; intros idx; [reflexivity|].
  rewrite filter_cons. cbn [fst]. destruct (endswith name extension) eqn:Hsel.
  - rewrite decide_True by reflexivity. rewrite !for_each_cons.
    destruct (index_entry path extension idx (name, content)); cbn; [apply IH | reflexivity].
  - rewrite decide_False by discriminate.
    rewrite for_each_cons, (index_entry_skipped _ _ _ _ _ Hsel). cbn. apply IH.
Qed.

(** X11: entries whose name does not end with the extension do not
    affect the engine: the constructor gives the same result on the
    listing without them. *)
Theorem other_extensions_are_ignored (path : string) (listing : list (string * string))
    (extension : string) :
  SearchEngine_init path listing extension
  = SearchEngine_init path
      (filter (λ entry, endswith entry.1 extension = true) listing) extension.
Proof. unfold SearchEngine_init. rewrite index_only_selected. reflexivity. Qed.



Lemma built_postings_closed (path : string) (listing : list (string * string))
    (extension : string) :
  ∃ e, SearchEngine_init path listing extension = Ret e ∧
       ∀ w, postings e w = containing w (omap (load_one path extension) listing).
Proof.
  destruct (built_index path listing extension) as (e & He & Hlook).
  exists e. split; [exact He|]. intros w. unfold postings.
  rewrite Hlook. apply extend_postings_None.
Qed.

Lemma postings_dom (self : SearchEngine) (w : string) :
  postings self w ≠ [] → w ∈ dom (inverted_index self).
Proof.
  unfold postings. rewrite elem_of_dom.
  destruct (inverted_index self !! w); [eauto | intros H; contradiction].
Qed.

(** X13: the order of the directory listing decides only the order
    inside the posting lists: two listings with the same entries give the
    same keys and, for every word, posting lists with the same
    Documents. *)
Theorem listing_order_only_orders_postings (path : string)
    (listing listing' : list (string * string)) (extension : string) :
  listing ≡ₚ listing' →
  ∃ e e',
    SearchEngine_init path listing extension = Ret e ∧
    SearchEngine_init path listing' extension = Ret e' ∧
    dom (inverted_index e) = dom (inverted_index e') ∧
    ∀ w, postings e w ≡ₚ postings e' w.
Proof.
  intros Hperm.
  destruct (built_index path listing extension) as (e & He & Hlook).
  destruct (built_index path listing' extension) as (e' & He' & Hlook').
  assert (∀ w, containing w (omap (load_one path extension) listing)
               ≡ₚ containing w (omap (load_one path extension) listing')) as Hsame.
  { intros w. unfold containing. rewrite Hperm. reflexivity. }
  exists e, e'. split; [exact He|]. split; [exact He'|]. split.
  - apply set_eq. intros w. rewrite !elem_of_dom, Hlook, Hlook'.
    specialize (Hsame w).
    destruct (containing w (omap (load_one path extension) listing)) as [|d ds].
    + apply Permutation_nil_l in Hsame. rewrite <- Hsame. reflexivity.
    + destruct (containing w (omap (load_one path extension) listing')) as [|d' ds'].
      * apply Permutation_nil_r in Hsame. discriminate.
      * split; intros _; eexists; reflexivity.
  - intros w. unfold postings. rewrite Hlook, Hlook', !extend_postings_None. apply Hsame.
Qed.

(** X14: the posting list of a word over a listing in two parts is the
    posting list over the first part followed by the one over the
    second. *)
Theorem index_of_concatenated_listings (path : string)
    (listing1 listing2 : list (string * string)) (extension : string) :
  ∃ e1 e2 e,
    SearchEngine_init path listing1 extension = Ret e1 ∧
    SearchEngine_init path listing2 extension = Ret e2 ∧
    SearchEngine_init path (listing1 ++ listing2) extension = Ret e ∧
    ∀ w, postings e w = (postings e1 w ++ postings e2 w)%list.
Proof.
  destruct (built_postings_closed path listing1 extension) as (e1 & He1 & H1).
  destruct (built_postings_closed path listing2 extension) as (e2 & He2 & H2).
  destruct (built_postings_closed path (listing1 ++ listing2) extension) as (e & He & H).
  exists e1, e2, e. repeat (split; [assumption|]).
  intros w. rewrite H, H1, H2, omap_app. apply containing_app.
Qed.




Lemma listing_order_only_orders_postings_witness :
  ∃ e e',
    SearchEngine_init "corpus" corpus ".txt" = Ret e ∧
    SearchEngine_init "corpus" (reverse corpus) ".txt" = Ret e' ∧
    dom (inverted_index e) = dom (inverted_index e') ∧
    ∀ w, postings e w ≡ₚ postings e' w.
Proof.
  apply (listing_order_only_orders_postings "corpus" corpus (reverse corpus) ".txt").
  symmetry. apply reverse_Permutation.
Defined.

Section MoreQueries.

Variable libm_log : float → float.

Lemma scoring_by_terms (self : SearchEngine) (words words' : list string)
    (output : list (string * float)) :
  clean <$> words = clean <$> words' →
  for_each (score_word libm_log self) words output
  = for_each (score_word libm_log self) words' output.
Proof.
  revert words' output.
  induction words as [|word words IH]; intros [|word' words'] output;
    try discriminate; [reflexivity|].
  rewrite !fmap_cons. intros [= Hword Hwords]. rewrite !for_each_cons.
  assert (score_word libm_log self output word
          = score_word libm_log self output word') as ->
    by (unfold score_word; rewrite Hword; reflexivity).
  destruct (score_word libm_log self output word'); cbn; [apply IH, Hwords | reflexivity].
Qed.

Lemma dict_getitem_keys (output : list (string * float)) (p : string) :
  p ∈ output.*1 ↔ ∃ v, dict_getitem output p = Ret v.
Proof.
  induction output as [|[k v] output IH]; cbn [dict_getitem].
  - split; [intros H; inversion H | intros [v H]; discriminate].
  - rewrite fmap_cons, elem_of_cons. cbn [fst].
    destruct (String.eqb_spec k p) as [->|Hne].
    + split; eauto.
    + rewrite <- IH. split; [intros [?|?]; [congruence | assumption] | auto].
Qed.

Lemma scoring_elsewhere (self : SearchEngine) (words : list string)
    (output0 output : list (string * float)) (p : string) :
  for_each (score_word libm_log self) words output0 = Ret output →
  (∀ w f, w ∈ words → f ∈ postings self (clean w) → get_path f ≠ p) →
  dict_getitem output p = dict_getitem output0 p.
Proof.
  intros Hrun Hnone.
  destruct (scoring_keeps_last libm_log self words output0 output p Hrun)
    as [[Hsame _]|(ws1 & word & ws2 & fs1 & file & fs2 & idf & -> & Hp & Hfile & _)];
    [exact Hsame|].
  exfalso. apply (Hnone word file); [| |exact Hfile].
  - apply elem_of_app. right. apply list_elem_of_here.
  - unfold postings. rewrite Hp. apply elem_of_app. right. apply list_elem_of_here.
Qed.

End MoreQueries.

(** X16: [search] sees a query through the normal forms of its words
    only: two queries whose words normalize to the same list give the same
    result, or the same error, on every engine. *)
Theorem search_reads_normalized_words (libm_log : float → float) (self : SearchEngine)
    (query query' : string) :
  clean <$> split query = clean <$> split query' →
  search libm_log self query = search libm_log self query'.
Proof.
  intros Hq. unfold search. rewrite (scoring_by_terms libm_log self _ _ [] Hq). reflexivity.
Qed.

Lemma search_reads_normalized_words_witness :
  search log_fixture corpus_engine_filled "X, y!"
  = search log_fixture corpus_engine_filled " x   Y".
Proof.
  apply (search_reads_normalized_words log_fixture corpus_engine_filled "X, y!" " x   Y").
  reflexivity.
Defined.

(** X17: when the scoring loop of [search] returns, the score held for
    the path of a Document is [tf * idf] for the last word of the query
    that has a posting with that path, taken at the last such posting:
    what earlier words stored for the path is replaced, not added to. *)
Theorem last_match_sets_the_score (libm_log : float → float) (self : SearchEngine)
    (ws1 ws2 : list string) (word : string) (fs1 fs2 : list Document) (file : Document)
    (output : list (string * float)) :
  for_each (score_word libm_log self) (ws1 ++ word :: ws2) [] = Ret output →
  inverted_index self !! clean word = Some (fs1 ++ file :: fs2)%list →
  (∀ f, f ∈ fs2 → get_path f ≠ get_path file) →
  (∀ w f, w ∈ ws2 → f ∈ postings self (clean w) → get_path f ≠ get_path file) →
  ∃ idf, _calculate_idf libm_log self (clean word) = Ret idf ∧
         dict_getitem output (get_path file)
         = Ret (float_mul (term_frequency file (clean word)) idf).
Proof.
  intros Hrun Hp Hfs2 Hws2. rewrite for_each_app in Hrun.
  destruct (for_each _ ws1 []) as [out1|err]; [|discriminate].
  change (for_each (score_word libm_log self) (word :: ws2) out1 = Ret output) in Hrun.
  rewrite for_each_cons in Hrun.
  destruct (score_word libm_log self out1 word) as [out2|err] eqn:Hword; [|discriminate].
  change (for_each (score_word libm_log self) ws2 out2 = Ret output) in Hrun. unfold score_word in Hword. rewrite Hp in Hword.
  assert ((fs1 ++ file :: fs2)%list ≠ []) as Hne by (destruct fs1; discriminate).
  destruct (posting_loop_returns libm_log _ _ _ _ _ Hne Hword) as [idf Hidf].
  rewrite (posting_loop libm_log _ _ _ _ _ Hidf) in Hword. injection Hword as Hout.
  exists idf. split; [exact Hidf|].
  rewrite (scoring_elsewhere libm_log self ws2 out2 output _ Hrun Hws2), <- Hout.
  apply (assignments_last get_path
           (λ f, float_mul (term_frequency f (clean word)) idf) fs1 fs2 file).
  exact Hfs2.
Qed.

(** X19: when [search] returns, it returns each path once, and a path is
    returned exactly when it is the path of a Document in the posting list
    of the normal form of some word of the query. *)
Theorem returned_paths_are_the_matches (libm_log : float → float) (self : SearchEngine)
    (query : string) (paths : list string) :
  search libm_log self query = Ret paths →
  NoDup paths ∧
  ∀ p, p ∈ paths ↔
       ∃ word file, word ∈ split query ∧ file ∈ postings self (clean word) ∧
                    get_path file = p.
Proof.
  unfold search.
  destruct (for_each _ (split query) []) as [output|err] eqn:Hrun; [|discriminate].
  cbn. intros Hsorted.
  pose proof (sorted_reverse_Permutation _ _ _ Hsorted) as Hperm.
  split.
  - rewrite Hperm. apply (scoring_NoDup libm_log _ _ _ _ Hrun). constructor.
  - intros p. rewrite Hperm, dict_getitem_keys.
    destruct (scoring_keeps_last libm_log self _ _ _ p Hrun)
      as [[Hsame Hnone]|(ws1 & word & ws2 & fs1 & file & fs2 & idf
                         & Hq & Hp & Hfile & _ & _ & _ & Hget)].
    + split.
      * intros [v Hv]. rewrite Hsame in Hv. discriminate.
      * intros (word & file & Hw & Hf & Hpath). exfalso. exact (Hnone word file Hw Hf Hpath).
    + split; [|eauto]. intros _. exists word, file. split; [|split; [|exact Hfile]].
      * rewrite Hq. apply elem_of_app. right. apply list_elem_of_here.
      * unfold postings. rewrite Hp. apply elem_of_app. right. apply list_elem_of_here.
Qed.


Lemma before_fmap_inv {A B : Type} (f : A → B) (p q : B) (l : list A) :
  before p q (f <$> l) → ∃ a b, p = f a ∧ q = f b ∧ before a b l.
Proof.
  induction l as [|x l IH]; intros H; [inversion H|].
  rewrite fmap_cons in H. inversion H as [l' Hq|y l' Hpq]; subst.
  - apply list_elem_of_fmap in Hq as (b & -> & Hb).
    exists x, b. repeat split. apply before_here, Hb.
  - destruct (IH Hpq) as (a & b & -> & -> & Hab).
    exists a, b. repeat split. apply before_later, Hab.
Qed.

Lemma before_elem_of {A : Type} (a b : A) (l : list A) :
  before a b l → a ∈ l ∧ b ∈ l.
Proof.
  induction 1 as [l Hb|x l Hab [Ha Hb]].
  - split; [apply list_elem_of_here | apply list_elem_of_further, Hb].
  - split; apply list_elem_of_further; assumption.
Qed.

Lemma Sorted_fmap_elem {A B : Type} (f : A → B) (R : relation A) (R' : relation B)
    (l : list A) :
  (∀ x y, x ∈ l → y ∈ l → R x y → R' (f x) (f y)) →
  Sorted R l → Sorted R' (f <$> l).
Proof.
  intros HR Hs. induction Hs as [|x l Hs IH Hhd]; [constructor|].
  rewrite fmap_cons. constructor.
  - apply IH. intros y z Hy Hz. apply HR; apply list_elem_of_further; assumption.
  - destruct Hhd as [|y l Hxy]; [constructor|]. rewrite fmap_cons. constructor.
    apply HR; [apply list_elem_of_here | | exact Hxy].
    apply list_elem_of_further, list_elem_of_here.
Qed.

(** X18: when [search] returns, the paths are the keys of the accumulator
    in an order that is descending by score, and a path inserted before
    another comes before it unless its score is the smaller one: equal
    scores keep the order of insertion. *)
Theorem search_ranks_by_score_then_insertion (libm_log : float → float)
    (self : SearchEngine) (query : string) (paths : list string) :
  search libm_log self query = Ret paths →
  ∃ output,
    for_each (score_word libm_log self) (split query) [] = Ret output ∧
    paths ≡ₚ output.*1 ∧
    Sorted (λ p q, ∀ sp sq, dict_getitem output p = Ret sp →
                            dict_getitem output q = Ret sq →
                            (sp <? sq)%float = false) paths ∧
    ∀ p q sp sq, before p q output.*1 →
                 dict_getitem output p = Ret sp → dict_getitem output q = Ret sq →
                 (sp <? sq)%float = false → before p q paths.
Proof.
  intros Hsearch.
  destruct (search_ranking libm_log self query paths Hsearch)
    as (output & ranked & Hrun & -> & Hperm & Hsorted & Hstable).
  assert (NoDup output.*1) as Hnd
    by (apply (scoring_NoDup libm_log _ _ _ _ Hrun); constructor).
  assert (∀ a, a ∈ output → dict_getitem output a.1 = Ret a.2) as Hscore
    by (intros [k v] Ha; exact (dict_getitem_NoDup output k v Hnd Ha)).
  exists output. split; [exact Hrun|]. split; [apply fmap_Permutation, Hperm|]. split.
  - apply (Sorted_fmap_elem fst (λ a b, (a.2 <? b.2)%float = false)); [|exact Hsorted].
    intros a b Ha Hb Hab sp sq Hsp Hsq.
    rewrite Hperm in Ha, Hb. rewrite (Hscore a Ha) in Hsp. rewrite (Hscore b Hb) in Hsq.
    injection Hsp as <-. injection Hsq as <-. exact Hab.
  - intros p q sp sq Hpq Hsp Hsq Hkeys.
    apply before_fmap_inv in Hpq as (a & b & -> & -> & Hab).
    destruct (before_elem_of _ _ _ Hab) as [Ha Hb].
    rewrite (Hscore a Ha) in Hsp. rewrite (Hscore b Hb) in Hsq.
    injection Hsp as <-. injection Hsq as <-.
    apply before_fmap, Hstable; assumption.
Qed.

Lemma search_ranks_by_score_then_insertion_witness :
  ∃ output,
    for_each (score_word log_fixture corpus_engine_filled) (split "y x") [] = Ret output ∧
    ["corpus/a.txt"; "corpus/b.txt"] ≡ₚ output.*1 ∧
    Sorted (λ p q, ∀ sp sq, dict_getitem output p = Ret sp →
                            dict_getitem output q = Ret sq →
                            (sp <? sq)%float = false)
           ["corpus/a.txt"; "corpus/b.txt"] ∧
    ∀ p q sp sq, before p q output.*1 →
                 dict_getitem output p = Ret sp → dict_getitem output q = Ret sq →
                 (sp <? sq)%float = false →
                 before p q ["corpus/a.txt"; "corpus/b.txt"].
Proof.
  apply (search_ranks_by_score_then_insertion log_fixture corpus_engine_filled "y x").
  vm_compute. reflexivity.
Defined.

Lemma returned_paths_are_the_matches_witness :
  NoDup ["corpus/a.txt"; "corpus/b.txt"] ∧
  ∀ p, p ∈ ["corpus/a.txt"; "corpus/b.txt"] ↔
       ∃ word file, word ∈ split "x y" ∧
                    file ∈ postings corpus_engine_filled (clean word) ∧
                    get_path file = p.
Proof.
  apply (returned_paths_are_the_matches log_fixture corpus_engine_filled "x y").
  vm_compute. reflexivity.
Defined.

Lemma last_match_sets_the_score_witness :
  ∃ idf, _calculate_idf log_fixture corpus_engine_filled (clean "y") = Ret idf ∧
         dict_getitem [("corpus/a.txt", 0%float); ("corpus/b.txt", 0%float)]
                      (get_path doc_a)
         = Ret (float_mul (term_frequency doc_a (clean "y")) idf).
Proof.
  apply (last_match_sets_the_score log_fixture corpus_engine_filled
           ["x"] [] "y" [] [doc_b] doc_a).
  - vm_compute. reflexivity.
  - vm_compute. reflexivity.
  - intros f ->%list_elem_of_singleton. vm_compute. discriminate.
  - intros w f Hw. inversion Hw.
Defined.


Lemma frequency_of_distinct_tokens_witness :
  described_frequency "x y" (clean "X") = Ret (term_frequency doc_a "X").
Proof.
  apply (frequency_of_distinct_tokens "corpus/a.txt" "x y" doc_a "X").
  - apply (bool_decide_unpack _). vm_compute. exact I.
  - vm_compute. reflexivity.
  - apply elem_of_dom. vm_compute. eexists. reflexivity.
Defined.

(** X20: on a constructed engine [search] never returns a ranking: it
    returns no list with a path in it, for any query. *)
Theorem constructed_engine_never_ranks (libm_log : float → float) (path : string)
    (listing : list (string * string)) (extension : string) (e : SearchEngine)
    (query : string) (p : string) (paths : list string) :
  SearchEngine_init path listing extension = Ret e →
  search libm_log e query ≠ Ret (p :: paths).
Proof.
  intros He. unfold search.
  destruct (decide (Exists (λ word, clean word ∈ dom (inverted_index e)) (split query)))
    as [Hsome|Hnone].
  - apply Exists_exists in Hsome. rewrite scoring_raises; [discriminate | | exact Hsome].
    intros term Hterm. exact (idf_raises_on_built libm_log _ _ _ _ _ He Hterm).
  - rewrite scoring_unmatched; [discriminate|].
    intros word Hword Hkey. apply Hnone, Exists_exists. eauto.
Qed.

Lemma constructed_engine_never_ranks_witness :
  search log_fixture corpus_engine "love y" ≠ Ret ["corpus/b.txt"; "corpus/a.txt"].
Proof.
  apply (constructed_engine_never_ranks log_fixture "corpus" corpus ".txt"
           corpus_engine "love y").
  vm_compute. reflexivity.
Defined.

(** X21: on a constructed engine [_calculate_idf] never returns a
    logarithm: it returns no float, for any term. *)
Theorem constructed_engine_idf_is_no_float (libm_log : float → float) (path : string)
    (listing : list (string * string)) (extension : string) (e : SearchEngine)
    (term : string) (x : float) :
  SearchEngine_init path listing extension = Ret e →
  _calculate_idf libm_log e term ≠ Ret (PyFloat x).
Proof.
  intros He. destruct (decide (term ∈ dom (inverted_index e))) as [Hkey|Hkey].
  - destruct (idf_raises_on_built libm_log _ _ _ _ _ He Hkey) as (_ & _ & _ & Hraise).
    rewrite Hraise. discriminate.
  - apply not_elem_of_dom in Hkey. unfold _calculate_idf. rewrite Hkey. discriminate.
Qed.

Lemma constructed_engine_idf_is_no_float_witness :
  _calculate_idf log_fixture corpus_engine "x" ≠ Ret (PyFloat 0x1.62e42fefa39efp-1%float).
Proof.
  apply (constructed_engine_idf_is_no_float log_fixture "corpus" corpus ".txt"
           corpus_engine "x").
  vm_compute. reflexivity.
Defined.

